(** * DP-SGD fine-tuning with uncertainty sampling (improve_baseline_svhn.py)

    A shallow embedding of the numerical core of the script: the per-example
    private gradient ([private_grad]), the privacy accountant wrapper
    ([compute_epsilon]), the pool diagnostics and the three sampling
    criteria of [main], and the key schedule of the fine-tuning loop.

    The script is read as Python 3.  Arithmetic is carried out over the
    real numbers: every float of the script is read as the real it denotes
    and every operation as the exact one.  Library functions that the script imports (automatic
    differentiation, the samplers of jax.random and numpy.random, softmax,
    the optimizer, the RDP accountant) are parameters of the sections that
    use them. *)

From Stdlib Require Import String.
From Stdlib Require Import Reals Lra Lia ZArith Bool List Permutation Sorted.
Import ListNotations.
Open Scope R_scope.

Set Warnings "-register-all".

(** ** Exceptions *)

Inductive exn : Type :=
| AssertionError
| IndexError
| ValueError
| TypeError
| ZeroDivisionError
| UnboundLocalError.

Inductive result (A : Type) : Type :=
| Ok (a : A)
| Raise (e : exn).
Arguments Ok {A} a.
Arguments Raise {A} e.

Definition bind {A B} (m : result A) (k : A -> result B) : result B :=
  match m with
  | Ok a => k a
  | Raise e => Raise e
  end.

Notation "x <- m ;; k" := (bind m (fun x => k))
  (at level 61, m at next level, right associativity).

Fixpoint mapM {A B} (f : A -> result B) (xs : list A) : result (list B) :=
  match xs with
  | [] => Ok []
  | x :: r => y <- f x ;; ys <- mapM f r ;; Ok (y :: ys)
  end.

(** ** Pytrees (jax.tree_util)

    Parameters and gradients are nested containers of arrays: stax.serial
    keeps a list with one tuple per layer, [(W, b)] for a layer with
    weights and [()] for one without. *)

Inductive pytree (A : Type) : Type :=
| Leaf (a : A)
| Node (children : list (pytree A)).
Arguments Leaf {A} a.
Arguments Node {A} children.

Fixpoint tree_map {A B} (f : A -> B) (t : pytree A) : pytree B :=
  match t with
  | Leaf a => Leaf (f a)
  | Node cs => Node (map (tree_map f) cs)
  end.

Fixpoint tree_leaves {A} (t : pytree A) : list A :=
  match t with
  | Leaf a => [a]
  | Node cs => flat_map tree_leaves cs
  end.

Definition treedef := pytree unit.

Definition tree_structure {A} (t : pytree A) : treedef :=
  tree_map (fun _ => tt) t.

(** [tree_flatten] returns the leaves in left-to-right order and the
    container structure. *)
Definition tree_flatten {A} (t : pytree A) : list A * treedef :=
  (tree_leaves t, tree_structure t).

(** Rebuilding consumes the leaves left to right; [unflatten_from] returns
    the tree built for one treedef and the leaves that remain. *)
Fixpoint unflatten_from {A} (d : treedef) (xs : list A)
  : result (pytree A * list A) :=
  match d with
  | Leaf _ =>
      match xs with
      | x :: r => Ok (Leaf x, r)
      | [] => Raise ValueError
      end
  | Node ds =>
      let fix go (ds : list treedef) (xs : list A)
        : result (list (pytree A) * list A) :=
        match ds with
        | [] => Ok ([], xs)
        | d' :: ds' =>
            p <- unflatten_from d' xs ;;
            q <- go ds' (snd p) ;;
            Ok (fst p :: fst q, snd q)
        end in
      p <- go ds xs ;; Ok (Node (fst p), snd p)
  end.

(** [tree_unflatten] raises when the number of leaves does not fit. *)
Definition tree_unflatten {A} (d : treedef) (xs : list A) : result (pytree A) :=
  p <- unflatten_from d xs ;;
  match snd p with
  | [] => Ok (fst p)
  | _ :: _ => Raise ValueError
  end.

(** Leaf-indexed map: [f j a] is applied to the [j]-th leaf, counting from
    [j0] in flattening order. *)
Fixpoint tree_mapi_from {A B} (f : nat -> A -> B) (j0 : nat) (t : pytree A)
  {struct t} : pytree B :=
  match t with
  | Leaf a => Leaf (f j0 a)
  | Node cs =>
      Node ((fix go (cs : list (pytree A)) (j : nat) : list (pytree B) :=
               match cs with
               | [] => []
               | c :: cs' =>
                   tree_mapi_from f j c :: go cs' (j + length (tree_leaves c))%nat
               end) cs j0)
  end.

Definition tree_mapi {A B} (f : nat -> A -> B) (t : pytree A) : pytree B :=
  tree_mapi_from f 0 t.

Fixpoint mapi_from {A B} (f : nat -> A -> B) (j0 : nat) (xs : list A) : list B :=
  match xs with
  | [] => []
  | x :: r => f j0 x :: mapi_from f (S j0) r
  end.

(** A left fold that stops at the first exception. *)
Fixpoint fold_result {S X} (f : S -> X -> result S) (xs : list X) (st : S)
  : result S :=
  match xs with
  | [] => Ok st
  | x :: r => st' <- f st x ;; fold_result f r st'
  end.

(** ** Arrays

    An array is held raveled (row-major) next to its shape.  A batched
    array is an array with one more, leading, axis: it is held as the list
    of its rows, each raveled, next to the shape of a row. *)

Record array : Type := mkArray { shape : list nat; ravel : list R }.

Record batched : Type := mkBatched { row_shape : list nat; rows : list (list R) }.

(** Number of entries of an array of a given shape. *)
Definition size (s : list nat) : nat := fold_right Nat.mul 1%nat s.

Fixpoint vadd (xs ys : list R) : list R :=
  match xs, ys with
  | x :: xs', y :: ys' => (x + y) :: vadd xs' ys'
  | _, _ => []
  end.

(** [a + b], [c * a] and [a / d] for arrays of one shape and scalars. *)
Definition aadd (a b : array) : array :=
  mkArray (shape a) (vadd (ravel a) (ravel b)).

Definition ascale (c : R) (a : array) : array :=
  mkArray (shape a) (map (fun x => c * x) (ravel a)).

Definition adiv (a : array) (d : R) : array :=
  mkArray (shape a) (map (fun x => x / d) (ravel a)).

Definition rsum (xs : list R) : R := fold_right Rplus 0 xs.

(** [np.linalg.norm] of a vector: the 2-norm. *)
Definition norm (xs : list R) : R := sqrt (rsum (map (fun x => x * x) xs)).

(** [np.sum(n, 0)]: the rows added up entry by entry, zeros when there is
    no row. *)
Definition sum0 (n : batched) : array :=
  mkArray (row_shape n)
          (fold_right vadd (repeat 0 (size (row_shape n))) (rows n)).

(** [np.amax((a, b))] of a pair of scalars. *)
Definition amax2 (a b : R) : R := Rmax a b.

(** ** Command-line flags read by the core *)

Record flags : Type := mkFlags {
  dpsgd : bool;
  noise_multiplier : R;
  l2_norm_clip : R;
  batch_size : Z;
  epochs : Z;
  seed : Z;
  uncertain : Z;
  n_extra : Z
}.

(** ** Python sequences *)

(** [l[:k]] for an integer [k] of either sign. *)
Definition py_take {A} (k : Z) (l : list A) : list A :=
  if (k <? 0)%Z then firstn (length l - Z.to_nat (- k)) l
  else firstn (Z.to_nat k) l.

(** The builtin [min] of a sequence. *)
Definition py_min (xs : list R) : result R :=
  match xs with
  | [] => Raise ValueError
  | x :: r => Ok (fold_left Rmin r x)
  end.

(** [np.argmax] of one row: the first position of the largest entry. *)
Fixpoint argmax_from (best : R) (best_i i : nat) (xs : list R) : nat :=
  match xs with
  | [] => best_i
  | x :: r =>
      if Rlt_dec best x then argmax_from x i (S i) r
      else argmax_from best best_i (S i) r
  end.

Definition argmax (row : list R) : result nat :=
  match row with
  | [] => Raise ValueError
  | x :: r => Ok (argmax_from x 0 1 r)
  end.

(** Entry-wise comparison of two integer vectors, with numpy's
    broadcasting of a vector of length one. *)
Definition compare_vectors (op : nat -> nat -> bool) (xs ys : list nat)
  : result (list bool) :=
  match xs, ys with
  | [x], _ => Ok (map (fun y => op x y) ys)
  | _, [y] => Ok (map (fun x => op x y) xs)
  | _, _ =>
      if (length xs =? length ys)%nat
      then Ok (map (fun xy => op (fst xy) (snd xy)) (combine xs ys))
      else Raise TypeError
  end.

(** [onp.where(mask)[0]]: the positions that hold [True]. *)
Fixpoint where_from (i : nat) (mask : list bool) : list nat :=
  match mask with
  | [] => []
  | b :: r => if b then i :: where_from (S i) r else where_from (S i) r
  end.

Definition where_ (mask : list bool) : list nat := where_from 0 mask.

(** [onp.sort] of one row, ascending. *)
Fixpoint insert_sorted (x : R) (l : list R) : list R :=
  match l with
  | [] => [x]
  | y :: r => if Rle_dec x y then x :: y :: r else y :: insert_sorted x r
  end.

Definition sort_row (row : list R) : list R := fold_right insert_sorted [] row.

(** [onp.argsort]: the positions in ascending order of their values.  The
    order that numpy gives to equal values is not fixed; here the earlier
    position comes first. *)
Fixpoint insert_by (v : nat -> R) (i : nat) (l : list nat) : list nat :=
  match l with
  | [] => [i]
  | j :: r => if Rle_dec (v i) (v j) then i :: j :: r else j :: insert_by v i r
  end.

Definition argsort (xs : list R) : list nat :=
  fold_right (insert_by (fun i => nth i xs 0)) [] (seq 0 (length xs)).

(** ** Pool diagnostics and selection (main, "on pool data") *)

Definition pool_diagnostic (pool_logits pool_labels : list (list R))
  : result (list nat * list nat) :=
  pool_true_labels <- mapM argmax pool_labels ;;
  pool_predicted_labels <- mapM argmax pool_logits ;;
  eq_mask <- compare_vectors Nat.eqb pool_true_labels pool_predicted_labels ;;
  ne_mask <- compare_vectors (fun a b => negb (a =? b)%nat)
                             pool_true_labels pool_predicted_labels ;;
  let pool_correct_indices := where_ eq_mask in
  let pool_incorrect_indices := where_ ne_mask in
  if (length pool_correct_indices + length pool_incorrect_indices
      =? length pool_labels)%nat
  then Ok (pool_correct_indices, pool_incorrect_indices)
  else Raise AssertionError.

(** The lines written to the log format [onp.min] and [onp.max] of a
    vector of scores; both raise on an empty vector. *)
Definition log_min_max (scores : list R) : result unit :=
  match scores with
  | [] => Raise ValueError
  | _ :: _ => Ok tt
  end.

(** [scores[indices]] for positions inside the vector. *)
Definition take_indices (scores : list R) (indices : list nat) : list R :=
  map (fun i => nth i scores 0) indices.

(** Entropy criterion.  This is the score of the script for
    probabilities that are positive, as those of a softmax are; at a
    probability of zero the script computes [0 * log 0], which is nan,
    where [ln] below gives 0. *)
Definition entropy (probs : list R) : R :=
  - rsum (map (fun p => p * ln p) probs).

(** [pool_entropy_sorted_indices[::-1][:FLAGS.n_extra]]. *)
Definition entropy_indices (pool_probs : list (list R)) (n_extra : Z)
  : list nat :=
  let pool_entropy := map entropy pool_probs in
  let pool_entropy_sorted_indices := argsort pool_entropy in
  py_take n_extra (rev pool_entropy_sorted_indices).

Definition entropy_branch (pool_probs : list (list R)) (n_extra : Z)
  : result (list nat) :=
  let pool_entropy := map entropy pool_probs in
  _ <- log_min_max pool_entropy ;;
  let pool_uncertain_indices := entropy_indices pool_probs n_extra in
  _ <- log_min_max (take_indices pool_entropy pool_uncertain_indices) ;;
  Ok pool_uncertain_indices.

(** Difference criterion: [sorted[-1] - sorted[-2]] of every row. *)
Definition row_diff (row : list R) : result R :=
  match rev (sort_row row) with
  | top1 :: top2 :: _ => Ok (top1 - top2)
  | _ => Raise IndexError
  end.

Definition difference_branch (pool_probs : list (list R)) (n_extra : Z)
  : result (list nat) :=
  pool_probs_diff <- mapM row_diff pool_probs ;;
  smallest <- py_min pool_probs_diff ;;
  if Rlt_dec 0 smallest
  then
    _ <- log_min_max pool_probs_diff ;;
    let pool_uncertain_indices := py_take n_extra (argsort pool_probs_diff) in
    _ <- log_min_max (take_indices pool_probs_diff pool_uncertain_indices) ;;
    Ok pool_uncertain_indices
  else Raise AssertionError.

(** ** The per-example private gradient *)

Section PrivateGrad.

(** A single-example batch: one image with its one-hot label. *)
Variable example : Type.

(** [dloss params ex j k] is the derivative of the loss of [params] on the
    single-example batch [ex] with respect to entry [k] of the [j]-th
    parameter array.  jax.grad returns these derivatives in a tree that
    has the containers and the shapes of [params]. *)
Variable dloss : pytree array -> example -> nat -> nat -> R.

Definition grad_loss (params : pytree array) (ex : example) : pytree array :=
  tree_mapi
    (fun j p => mkArray (shape p)
                  (map (dloss params ex j) (seq 0 (size (shape p)))))
    params.

(** PRNG keys of jax.random; [normal_at rng shp k] is entry [k] of
    [random.normal(rng, shp)], a function of the key and the shape. *)
Variable key : Type.
Variable normal_at : key -> list nat -> nat -> R.

Definition random_normal (rng : key) (shp : list nat) : array :=
  mkArray shp (map (normal_at rng shp) (seq 0 (size shp))).

Definition _clipped_grad (l2_norm_clip : R) (params : pytree array)
           (single_example_batch : example) : result (pytree array) :=
  let grads := grad_loss params single_example_batch in
  let '(nonempty_grads, tree_def) := tree_flatten grads in
  let total_grad_norm :=
    norm (map (fun neg => norm (ravel neg)) nonempty_grads) in
  let divisor := amax2 (total_grad_norm / l2_norm_clip) 1 in
  let normalized_nonempty_grads :=
    map (fun g => adiv g divisor) nonempty_grads in
  tree_unflatten tree_def normalized_nonempty_grads.

(** [vmap f] maps [f] over the leading axis of the batch and stacks the
    results leaf by leaf.  The containers and row shapes of the output are
    those of one result of [f], here those of [like]. *)
Definition stack_leaf (outs : list (pytree array)) (j : nat) (p : array)
  : batched :=
  mkBatched (shape p)
    (flat_map (fun t => match nth_error (tree_leaves t) j with
                        | Some a => [ravel a]
                        | None => []
                        end) outs).

Definition vmap (like : pytree array)
           (f : example -> result (pytree array)) (batch : list example)
  : result (pytree batched) :=
  outs <- mapM f batch ;;
  Ok (tree_mapi (stack_leaf outs) like).

Definition private_grad (params : pytree array) (batch : list example)
           (rng : key) (l2_norm_clip noise_multiplier : R) (batch_size : Z)
  : result (pytree array) :=
  let px_clipped_grad_fn := vmap params (_clipped_grad l2_norm_clip params) in
  let std_dev := l2_norm_clip * noise_multiplier in
  let noise_ := fun n => aadd n (ascale std_dev (random_normal rng (shape n))) in
  let normalize_ := fun n => adiv n (IZR batch_size) in
  let sum_ := fun n => sum0 n in
  px <- px_clipped_grad_fn batch ;;
  let aggregated_clipped_grads := tree_map sum_ px in
  let noised_aggregated_clipped_grads :=
    tree_map noise_ aggregated_clipped_grads in
  let normalized_noised_aggregated_clipped_grads :=
    tree_map normalize_ noised_aggregated_clipped_grads in
  Ok normalized_noised_aggregated_clipped_grads.

(** *** The pipeline as the specification words it

    Steps 1 to 7: the per-example gradient, one global norm over all its
    entries, the divisor, the scaling, the sum over the batch, the noise
    of standard deviation [C * sigma], the division by [B]. *)

Definition global_norm (t : pytree array) : R :=
  norm (flat_map ravel (tree_leaves t)).

Definition clip_divisor (C : R) (params : pytree array) (ex : example) : R :=
  Rmax (global_norm (grad_loss params ex) / C) 1.

Definition clipped_entry (C : R) (params : pytree array) (ex : example)
           (j k : nat) : R :=
  dloss params ex j k / clip_divisor C params ex.

Definition summed_entry (C : R) (params : pytree array)
           (batch : list example) (j k : nat) : R :=
  rsum (map (fun ex => clipped_entry C params ex j k) batch).

Definition dp_sgd_entry (params : pytree array) (batch : list example)
           (rng : key) (C sigma : R) (B : Z) (j : nat) (shp : list nat)
           (k : nat) : R :=
  (summed_entry C params batch j k + (C * sigma) * normal_at rng shp k) / IZR B.

Definition dp_sgd_reference (params : pytree array) (batch : list example)
           (rng : key) (C sigma : R) (B : Z) : pytree array :=
  tree_mapi
    (fun j p => mkArray (shape p)
                  (map (dp_sgd_entry params batch rng C sigma B j (shape p))
                       (seq 0 (size (shape p)))))
    params.

(** The clipped gradient of one example as a tree over [params]. *)
Definition clipped_tree (C : R) (params : pytree array) (ex : example)
  : pytree array :=
  tree_mapi
    (fun j p => mkArray (shape p)
                  (map (clipped_entry C params ex j)
                       (seq 0 (size (shape p)))))
    params.

(** The mean of the clipped per-example gradients of a batch. *)
Definition mean_clipped (C : R) (params : pytree array)
           (batch : list example) : pytree array :=
  tree_mapi
    (fun j p => mkArray (shape p)
                  (map (fun k => summed_entry C params batch j k
                                 / INR (length batch))
                       (seq 0 (size (shape p)))))
    params.

End PrivateGrad.

Arguments grad_loss {example} dloss params ex.
Arguments random_normal {key} normal_at rng shp.
Arguments _clipped_grad {example} dloss l2_norm_clip params single_example_batch.
Arguments vmap {example} like f batch.
Arguments private_grad {example} dloss {key} normal_at params batch rng
  l2_norm_clip noise_multiplier batch_size.
Arguments clip_divisor {example} dloss C params ex.
Arguments clipped_entry {example} dloss C params ex j k.
Arguments summed_entry {example} dloss C params batch j k.
Arguments dp_sgd_entry {example} dloss {key} normal_at params batch rng C sigma B j shp k.
Arguments dp_sgd_reference {example} dloss {key} normal_at params batch rng C sigma B.
Arguments clipped_tree {example} dloss C params ex.
Arguments mean_clipped {example} dloss C params batch.

(** ** The selection and the loop of main *)

Section Pipeline.

(** *** numpy.random: one generator state for the whole process *)
Variable npr_state : Type.
Variable seeded_state : Z -> npr_state.
Variable npr_permutation : npr_state -> nat -> list nat * npr_state.

(** [npr.seed(s)] replaces the state of the global generator. *)
Definition npr_seed (ambient : npr_state) (s : Z) : result npr_state :=
  if ((0 <=? s) && (s <? 2 ^ 32))%Z then Ok (seeded_state s)
  else Raise ValueError.

(** Random criterion: [npr.permutation(n_pool)[:FLAGS.n_extra]]. *)
Definition random_indices (ambient : npr_state) (n_pool : nat) (n_extra : Z)
  : list nat * npr_state :=
  let (perm, ambient') := npr_permutation ambient n_pool in
  (py_take n_extra perm, ambient').

(** [stax.softmax] over the classes of one row. *)
Variable softmax : list R -> list R.

(** The selection of [main], from [npr.seed(FLAGS.seed)] to the
    assertion on the number of points picked.  The calls in between
    (plotting set-up, files, the dataset loader with [shuffle=False],
    the forward pass) are taken not to draw from the global generator.
    A value of the flag outside 0, 1, 2 leaves
    [pool_uncertain_indices] unbound. *)
Definition pool_uncertain_indices (F : flags) (ambient : npr_state)
           (pool_logits pool_labels : list (list R))
  : result (list nat) :=
  ambient1 <- npr_seed ambient (seed F) ;;
  let n_pool := length pool_logits in
  _ <- pool_diagnostic pool_logits pool_labels ;;
  let pool_probs := map softmax pool_logits in
  picked <-
    (if (uncertain F =? 0)%Z then entropy_branch pool_probs (n_extra F)
     else if (uncertain F =? 1)%Z then difference_branch pool_probs (n_extra F)
     else if (uncertain F =? 2)%Z
          then Ok (fst (random_indices ambient1 n_pool (n_extra F)))
          else Raise UnboundLocalError) ;;
  if (n_extra F =? Z.of_nat (length picked))%Z then Ok picked
  else Raise AssertionError.

(** *** jax.random keys, the optimizer, the fine-tuning loop *)
Variable key : Type.
Variable PRNGKey : Z -> key.
Variable fold_in : key -> nat -> key.
Variable normal_at : key -> list nat -> nat -> R.

Variable example : Type.
Variable dloss : pytree array -> example -> nat -> nat -> R.
(** [grad_loss] on a whole batch, for the update without privacy. *)
Variable batch_grad : pytree array -> list example -> pytree array.

Variable opt_state : Type.
Variable get_params : opt_state -> pytree array.
Variable opt_update : nat -> pytree array -> opt_state -> opt_state.

Definition update (rng : key) (i : nat) (st : opt_state)
           (batch : list example) : result opt_state :=
  let params := get_params st in
  Ok (opt_update i (batch_grad params batch) st).

Definition private_update (F : flags) (rng : key) (i : nat) (st : opt_state)
           (batch : list example) : result opt_state :=
  let params := get_params st in
  let rng := fold_in rng i in
  g <- private_grad dloss normal_at params batch rng
         (l2_norm_clip F) (noise_multiplier F) (batch_size F) ;;
  Ok (opt_update i g st).

(** The inner loop of one epoch; [itercount] is the next value of the
    counter. *)
Fixpoint run_batches (F : flags) (key0 : key) (itercount : nat)
         (st : opt_state) (batches : list (list example))
  : result opt_state :=
  match batches with
  | [] => Ok st
  | b :: rest =>
      st' <- (if dpsgd F then private_update F key0 itercount st b
              else update key0 itercount st b) ;;
      run_batches F key0 (S itercount) st' rest
  end.

(** One epoch: a new counter and [key = random.PRNGKey(FLAGS.seed)]. *)
Definition run_epoch (F : flags) (st : opt_state)
           (batches : list (list example)) : result opt_state :=
  let itercount := 0%nat in
  let key0 := PRNGKey (seed F) in
  run_batches F key0 itercount st batches.

(** The epochs in turn; [batches_of epoch] is what the minibatcher yields
    in that epoch. *)
Definition finetune (F : flags) (st : opt_state)
           (batches_of : nat -> list (list example)) : result opt_state :=
  fold_result (fun st epoch => run_epoch F st (batches_of epoch))
              (seq 1 (Z.to_nat (epochs F))) st.

(** The private step of the loop with the key it hands to
    [private_grad] written out. *)
Definition keyed_private_step (F : flags) (st : opt_state)
           (ib : nat * list example) : result opt_state :=
  g <- private_grad dloss normal_at (get_params st) (snd ib)
         (fold_in (PRNGKey (seed F)) (fst ib))
         (l2_norm_clip F) (noise_multiplier F) (batch_size F) ;;
  Ok (opt_update (fst ib) g st).

End Pipeline.

Arguments npr_seed {npr_state} seeded_state ambient s.
Arguments random_indices {npr_state} npr_permutation ambient n_pool n_extra.
Arguments pool_uncertain_indices {npr_state} seeded_state npr_permutation
  softmax F ambient pool_logits pool_labels.
Arguments update {key example} batch_grad {opt_state} get_params opt_update
  rng i st batch.
Arguments private_update {key} fold_in normal_at {example} dloss {opt_state}
  get_params opt_update F rng i st batch.
Arguments run_batches {key} fold_in normal_at {example} dloss batch_grad
  {opt_state} get_params opt_update F key0 itercount st batches.
Arguments run_epoch {key} PRNGKey fold_in normal_at {example} dloss batch_grad
  {opt_state} get_params opt_update F st batches.

Arguments finetune {key} PRNGKey fold_in normal_at {example} dloss batch_grad
  {opt_state} get_params opt_update F st batches_of.
Arguments keyed_private_step {key} PRNGKey fold_in normal_at {example} dloss
  {opt_state} get_params opt_update F st ib.

(** ** The privacy accountant *)

(** What [+] sees on its two sides in [compute_epsilon]: a list, and the
    [range] object that [range(11, 64)] evaluates to in Python 3.  A list
    concatenates with a list only. *)
Inductive pyseq : Type :=
| PyList (xs : list R)
| PyRange (start stop : Z).

Definition py_add (a b : pyseq) : result pyseq :=
  match a, b with
  | PyList xs, PyList ys => Ok (PyList (xs ++ ys))
  | _, _ => Raise TypeError
  end.

(** [a / b] on floats. *)
Definition py_truediv (a b : R) : result R :=
  if Req_dec_T b 0 then Raise ZeroDivisionError else Ok (a / b).

Definition linspace (start stop : R) (num : nat) : list R :=
  map (fun i => start + INR i * ((stop - start) / INR (num - 1))) (seq 0 num).

Section Accountant.

(** tensorflow_privacy's RDP accountant. *)
Variable compute_rdp : R -> R -> Z -> list R -> list R.
Variable get_privacy_spent : list R -> list R -> R -> R * R * R.

(** The first component collects the warnings issued. *)
Definition compute_epsilon (F : flags) (steps : Z) (num_examples : Z)
           (target_delta : R) : list string * result R :=
  let warned :=
    if Rlt_dec 1 (IZR num_examples * target_delta)
    then ["Your delta might be too high."%string] else [] in
  (warned,
   q <- py_truediv (IZR (batch_size F)) (IZR num_examples) ;;
   orders <- py_add (PyList (linspace (11 / 10) (109 / 10) 99))
                    (PyRange 11 64) ;;
   match orders with
   | PyList orders =>
       let rdp_const := compute_rdp q (noise_multiplier F) steps orders in
       let '(eps, _, _) := get_privacy_spent orders rdp_const target_delta in
       Ok eps
   | PyRange _ _ => Raise TypeError
   end).

End Accountant.

(** ** Small concrete instances on which the definitions are run *)

(** One layer with a weight of two entries and a bias of one, followed by
    a layer without parameters. *)
Definition sample_params : pytree array :=
  Node [Node [Leaf (mkArray [2%nat] [0; 0]); Leaf (mkArray [1%nat] [0])];
        Node []].

(** The gradients of two examples: entries (1, 2 | 2), of norm 3, for
    [true], and entries (3/10, 4/10 | 0), of norm 1/2, for [false]. *)
Definition sample_dloss (_ : pytree array) (ex : bool) (j k : nat) : R :=
  match ex, j, k with
  | true, 0%nat, 0%nat => 1
  | true, 0%nat, 1%nat => 2
  | true, 1%nat, 0%nat => 2
  | false, 0%nat, 0%nat => 3 / 10
  | false, 0%nat, 1%nat => 4 / 10
  | _, _, _ => 0
  end.

Definition sample_PRNGKey (s : Z) : nat := Z.to_nat s.

Definition sample_fold_in (k i : nat) : nat := (k + S i)%nat.

Definition sample_normal (rng : nat) (_ : list nat) (k : nat) : R :=
  INR (rng + k).

Definition sample_seeded_state (s : Z) : nat := Z.to_nat s.

(** A generator whose permutation is the identity in even states and the
    reversal in odd ones. *)
Definition sample_permutation (st n : nat) : list nat * nat :=
  (if Nat.even st then seq 0 n else rev (seq 0 n), S st).

Definition sample_softmax (row : list R) : list R := row.

Definition sample_flags : flags :=
  mkFlags true (11 / 10) 1 2 1 0 2 2.

(** ** The model, the loss and the accuracy *)

(** [l[k:]] for an integer [k] of either sign. *)
Definition py_drop {A} (k : Z) (l : list A) : list A :=
  if (k <? 0)%Z then skipn (length l - Z.to_nat (- k)) l
  else skipn (Z.to_nat k) l.

(** [np.mean] of a vector.  The mean of no entry is nan, which is no real
    number: it is [None]. *)
Definition np_mean (xs : list R) : option R :=
  match xs with
  | [] => None
  | _ :: _ => Some (rsum xs / INR (length xs))
  end.

(** An entry-wise operation along one axis, with the broadcasting of an
    axis of length one. *)
Definition broadcast {A B C} (op : A -> B -> result C)
           (xs : list A) (ys : list B) : result (list C) :=
  match xs, ys with
  | [x], _ => mapM (fun y => op x y) ys
  | _, [y] => mapM (fun x => op x y) xs
  | _, _ =>
      if (length xs =? length ys)%nat
      then mapM (fun xy => op (fst xy) (snd xy)) (combine xs ys)
      else Raise TypeError
  end.

(** [a * b] on two arrays of two axes, held as lists of rows. *)
Definition mul_2d (a b : list (list R)) : result (list (list R)) :=
  broadcast (broadcast (fun x y => Ok (x * y))) a b.

(** What [accuracy] returns, by [return_predicted_class]. *)
Inductive accuracy_value : Type :=
| Acc (acc : option R)
| AccAndClasses (acc : option R) (predicted_class : list nat).

(** [range(0, stop, step)]. *)
Definition py_range0 (stop step : Z) : result (list Z) :=
  if (step =? 0)%Z then Raise ValueError
  else if (step <? 0)%Z then Ok []
  else Ok (map (fun i => Z.of_nat i * step)%Z
               (seq 0 (Z.to_nat ((stop + step - 1) / step)))).

(** [l[lo:hi]] for [0 <= lo <= hi]. *)
Definition py_slice {A} (l : list A) (lo hi : Z) : list A :=
  firstn (Z.to_nat hi - Z.to_nat lo) (skipn (Z.to_nat lo) l).

(** [np.concatenate] along the first axis; it needs at least one array. *)
Definition np_concatenate {A} (parts : list (list A)) : result (list A) :=
  match parts with
  | [] => Raise ValueError
  | _ :: _ => Ok (concat parts)
  end.

Section Model.

(** One input of the network, and the two stax networks. *)
Variable image : Type.
Variable apply_fn_0 : list (pytree array) -> list image -> list (list R).
Variable apply_fn_1 : list (pytree array) -> list (list R) -> list (list R).
Variable logsoftmax : list R -> list R.

Definition predict (params : list (pytree array)) (inputs : list image)
  : list (list R) :=
  let params_0 := py_take (-1) params in
  let params_1 := py_drop (-1) params in
  let embeddings := apply_fn_0 params_0 inputs in
  let logits := apply_fn_1 params_1 embeddings in
  logits.

Definition loss (params : list (pytree array))
           (batch : list image * list (list R)) : result (option R) :=
  let (inputs, targets) := batch in
  let logits := predict params inputs in
  let logits := map logsoftmax logits in
  weighted <- mul_2d logits targets ;;
  Ok (option_map Ropp (np_mean (map rsum weighted))).

Definition accuracy (params : list (pytree array))
           (batch : list image * list (list R))
           (return_predicted_class : bool) : result accuracy_value :=
  let (inputs, targets) := batch in
  target_class <- mapM argmax targets ;;
  predicted_class <- mapM argmax (predict params inputs) ;;
  hits <- compare_vectors Nat.eqb predicted_class target_class ;;
  let acc := np_mean (map (fun hit : bool => if hit then 1 else 0) hits) in
  if return_predicted_class then Ok (AccAndClasses acc predicted_class)
  else Ok (Acc acc).

(** The logits of the pool: the embeddings are computed batch by batch
    and concatenated, the head is applied to all of them at once. *)
Definition pool_logits_of (F : flags) (params : list (pytree array))
           (pool_images : list image) : result (list (list R)) :=
  let n_pool := Z.of_nat (length pool_images) in
  starts <- py_range0 n_pool (batch_size F) ;;
  let pool_embeddings :=
    map (fun b_i => apply_fn_0 (py_take (-1) params)
                      (py_slice pool_images b_i (b_i + batch_size F)))
        starts in
  pool_embeddings <- np_concatenate pool_embeddings ;;
  Ok (apply_fn_1 (py_drop (-1) params) pool_embeddings).

End Model.

Arguments predict {image} apply_fn_0 apply_fn_1 params inputs.
Arguments loss {image} apply_fn_0 apply_fn_1 logsoftmax params batch.
Arguments accuracy {image} apply_fn_0 apply_fn_1 params batch
  return_predicted_class.
Arguments pool_logits_of {image} apply_fn_0 apply_fn_1 F params pool_images.

(** ** Reshaping to images and counting batches *)

Definition zprod (s : list Z) : Z := fold_right Z.mul 1%Z s.

(** [np.reshape(a, newshape)], where one entry of [newshape] may be [-1]:
    that entry becomes the size of [a] divided by the product of the
    others, and the sizes have to agree.  The entries keep their row-major
    order.  On a mismatch numpy raises ValueError (for an array on the
    device jax raises TypeError instead). *)
Definition np_reshape (a : array) (newshape : list Z) : result array :=
  let a_size := Z.of_nat (size (shape a)) in
  let newsize := zprod newshape in
  let fixed :=
    if (newsize <? 0)%Z
    then map (fun d => if (d =? -1)%Z then (a_size / - newsize)%Z else d)
             newshape
    else newshape in
  if forallb (fun d => (0 <=? d)%Z) fixed && (zprod fixed =? a_size)%Z
  then Ok (mkArray (map Z.to_nat fixed) (ravel a))
  else Raise ValueError.

Definition shape_as_image {L} (images : array) (labels : L) (dummy_dim : bool)
  : result (array * L) :=
  let target_shape :=
    if dummy_dim then [-1; 1; 32; 32; 3]%Z else [-1; 32; 32; 3]%Z in
  reshaped <- np_reshape images target_shape ;;
  Ok (reshaped, labels).

(** [divmod] on integers: the quotient is rounded down. *)
Definition py_divmod (a b : Z) : result (Z * Z) :=
  if (b =? 0)%Z then Raise ZeroDivisionError else Ok ((a / b)%Z, (a mod b)%Z).

(** The number of batches of an epoch, as [main] counts them. *)
Definition num_batches (num_extra batch_size : Z) : result Z :=
  qr <- py_divmod num_extra batch_size ;;
  let (num_complete_batches, leftover) := qr in
  Ok (num_complete_batches + (if (leftover =? 0)%Z then 0 else 1))%Z.

(** A one-hot label row of [width] classes with its one at class [c], the
    form of the targets that the loss is fed. *)
Definition one_hot (width c : nat) : list R :=
  map (fun i => if (i =? c)%nat then 1 else 0) (seq 0 width).


Definition sample_flags_no_epoch : flags :=
  mkFlags true (11 / 10) 1 2 0 0 2 2.

Definition sample_flags_difference : flags :=
  mkFlags true (11 / 10) 1 2 1 0 1 2.

Definition sample_flags_too_many : flags :=
  mkFlags true (11 / 10) 1 2 1 0 0 5.

(** Networks that hand their input through, on inputs that are rows of
    reals. *)
Definition sample_apply_fn_0 (_ : list (pytree array)) (xs : list (list R))
  : list (list R) := xs.

Definition sample_apply_fn_1 (_ : list (pytree array)) (es : list (list R))
  : list (list R) := es.

(** * Facts about pytrees *)

(** Induction over pytrees with the hypothesis available on every child. *)
Lemma pytree_ind' (A : Type) (P : pytree A -> Prop) :
  (forall a, P (Leaf a)) ->
  (forall cs, Forall P cs -> P (Node cs)) ->
  forall t, P t.
Proof.
  intros HL HN.
  fix IH 1.
  intros [a | cs].
  - apply HL.
  - apply HN. induction cs as [| c cs IHcs]; constructor.
    + apply IH.
    + exact IHcs.
Qed.

Section TreeFacts.

Context {A B C : Type}.

Lemma mapi_from_length (f : nat -> A -> B) xs j :
  length (mapi_from f j xs) = length xs.
Proof. revert j; induction xs; intros; simpl; auto. Qed.

Lemma mapi_from_app (f : nat -> A -> B) xs ys j :
  mapi_from f j (xs ++ ys)
  = mapi_from f j xs ++ mapi_from f (j + length xs) ys.
Proof.
  revert j; induction xs as [| x xs IH]; intros j; simpl.
  - now rewrite Nat.add_0_r.
  - rewrite IH. now replace (S j + length xs)%nat with (j + S (length xs))%nat by lia.
Qed.

Lemma tree_leaves_mapi_from (f : nat -> A -> B) t :
  forall j, tree_leaves (tree_mapi_from f j t) = mapi_from f j (tree_leaves t).
Proof.
  induction t as [a | cs IH] using pytree_ind'; intros j; simpl.
  - reflexivity.
  - revert j. induction IH as [| c cs Hc _ IHcs]; intros j; simpl.
    + reflexivity.
    + rewrite mapi_from_app, Hc, IHcs. reflexivity.
Qed.

Lemma tree_structure_mapi_from (f : nat -> A -> B) t :
  forall j, tree_structure (tree_mapi_from f j t) = tree_structure t.
Proof.
  unfold tree_structure.
  induction t as [a | cs IH] using pytree_ind'; intros j; simpl.
  - reflexivity.
  - f_equal. revert j. induction IH as [| c cs Hc _ IHcs]; intros j; simpl.
    + reflexivity.
    + now rewrite Hc, IHcs.
Qed.

Lemma tree_map_mapi_from (g : B -> C) (f : nat -> A -> B) t :
  forall j, tree_map g (tree_mapi_from f j t)
            = tree_mapi_from (fun i a => g (f i a)) j t.
Proof.
  induction t as [a | cs IH] using pytree_ind'; intros j; simpl.
  - reflexivity.
  - f_equal. revert j. induction IH as [| c cs Hc _ IHcs]; intros j; simpl.
    + reflexivity.
    + now rewrite Hc, IHcs.
Qed.

(** Two leaf-indexed maps agree as soon as they agree at every leaf with
    its own index. *)
Lemma tree_mapi_from_ext (f g : nat -> A -> B) t :
  forall j,
    (forall i a, nth_error (tree_leaves t) i = Some a ->
                 f (j + i)%nat a = g (j + i)%nat a) ->
    tree_mapi_from f j t = tree_mapi_from g j t.
Proof.
  induction t as [a | cs IH] using pytree_ind'; intros j H; simpl.
  - f_equal. specialize (H 0%nat a eq_refl). now rewrite Nat.add_0_r in H.
  - f_equal. revert j H. induction IH as [| c cs Hc _ IHcs]; intros j H; simpl.
    + reflexivity.
    + f_equal.
      * apply Hc. intros i a Hi. apply H. simpl.
        rewrite nth_error_app1; [exact Hi |].
        apply nth_error_Some. congruence.
      * apply IHcs. intros i a Hi.
        replace (j + length (tree_leaves c) + i)%nat
          with (j + (length (tree_leaves c) + i))%nat by lia.
        apply H. simpl.
        rewrite nth_error_app2 by lia.
        now replace (length (tree_leaves c) + i - length (tree_leaves c))%nat
          with i by lia.
Qed.

Lemma unflatten_from_map (f : A -> B) t :
  forall rest,
    unflatten_from (tree_structure t) (map f (tree_leaves t) ++ rest)
    = Ok (tree_map f t, rest).
Proof.
  unfold tree_structure.
  induction t as [a | cs IH] using pytree_ind'; intros rest; simpl.
  - reflexivity.
  - match goal with
    | |- bind (?go _ _) _ = _ =>
        assert (Hgo : go (map (tree_map (fun _ : A => tt)) cs)
                         (map f (flat_map tree_leaves cs) ++ rest)
                      = Ok (map (tree_map f) cs, rest))
    end.
    { revert rest. induction IH as [| c cs Hc _ IHcs]; intros rest; simpl.
      - reflexivity.
      - rewrite map_app, <- app_assoc, Hc. simpl. rewrite IHcs. reflexivity. }
    rewrite Hgo. reflexivity.
Qed.

Lemma tree_unflatten_map (f : A -> B) t :
  tree_unflatten (tree_structure t) (map f (tree_leaves t)) = Ok (tree_map f t).
Proof.
  unfold tree_unflatten.
  rewrite <- (app_nil_r (map f (tree_leaves t))), unflatten_from_map.
  reflexivity.
Qed.

End TreeFacts.

(** * Facts about vectors and norms *)

Lemma mapM_ok {A B} (f : A -> result B) (g : A -> B) xs :
  (forall x, f x = Ok (g x)) -> mapM f xs = Ok (map g xs).
Proof.
  intros H; induction xs as [| x xs IH]; simpl.
  - reflexivity.
  - now rewrite H, IH.
Qed.

Lemma mapM_length {A B} (f : A -> result B) xs ys :
  mapM f xs = Ok ys -> length ys = length xs.
Proof.
  revert ys. induction xs as [| x xs IH]; simpl; intros ys H.
  - now injection H as <-.
  - destruct (f x); [| discriminate]. simpl in H.
    destruct (mapM f xs) as [zs |]; [| discriminate].
    simpl in H. injection H as <-. simpl. now rewrite (IH zs).
Qed.

Lemma nth_error_mapi_from {A B} (f : nat -> A -> B) xs :
  forall j i, nth_error (mapi_from f j xs) i
              = option_map (f (j + i)%nat) (nth_error xs i).
Proof.
  induction xs as [| x xs IH]; intros j [| i]; simpl; try reflexivity.
  - now rewrite Nat.add_0_r.
  - rewrite IH. now replace (S j + i)%nat with (j + S i)%nat by lia.
Qed.

Lemma vadd_map {K} (f g : K -> R) ks :
  vadd (map f ks) (map g ks) = map (fun k => f k + g k) ks.
Proof. induction ks; simpl; congruence. Qed.

Lemma repeat_zero_map {K} (ks : list K) :
  repeat 0 (length ks) = map (fun _ => 0) ks.
Proof. induction ks; simpl; congruence. Qed.

Lemma fold_vadd_rows {X K} (g : X -> K -> R) (batch : list X) (ks : list K) :
  fold_right vadd (map (fun _ => 0) ks) (map (fun ex => map (g ex) ks) batch)
  = map (fun k => rsum (map (fun ex => g ex k) batch)) ks.
Proof.
  induction batch as [| ex batch IH]; simpl.
  - reflexivity.
  - rewrite IH. apply vadd_map.
Qed.

Lemma rsum_app xs ys : rsum (xs ++ ys) = rsum xs + rsum ys.
Proof. unfold rsum. induction xs; simpl; lra. Qed.

Lemma rsum_squares_nonneg xs : 0 <= rsum (map (fun x => x * x) xs).
Proof.
  unfold rsum. induction xs as [| x xs IH]; simpl.
  - lra.
  - pose proof (Rle_0_sqr x) as Hx. unfold Rsqr in Hx. lra.
Qed.

Lemma norm_nonneg xs : 0 <= norm xs.
Proof. apply sqrt_pos. Qed.

Lemma norm_square xs : norm xs * norm xs = rsum (map (fun x => x * x) xs).
Proof. apply sqrt_sqrt, rsum_squares_nonneg. Qed.

(** The 2-norm of the vector of per-array norms is the 2-norm of all the
    entries laid out in one vector. *)
Lemma norm_of_norms (ls : list array) :
  norm (map (fun neg => norm (ravel neg)) ls) = norm (flat_map ravel ls).
Proof.
  unfold norm at 1 3. f_equal.
  induction ls as [| a ls IH]; simpl.
  - reflexivity.
  - rewrite map_app, rsum_app, <- IH, norm_square. reflexivity.
Qed.

Lemma rsum_squares_div xs d :
  rsum (map (fun x => x * x) (map (fun x => x / d) xs))
  = rsum (map (fun x => x * x) xs) / (d * d).
Proof.
  destruct (Req_dec d 0) as [-> | Hd].
  - unfold rsum. induction xs as [| x xs IH]; simpl.
    + unfold Rdiv. lra.
    + rewrite IH. unfold Rdiv. rewrite Rmult_0_r, Rinv_0. lra.
  - unfold rsum. induction xs as [| x xs IH]; simpl.
    + unfold Rdiv. lra.
    + rewrite IH. field. exact Hd.
Qed.

Lemma norm_div xs d : 0 < d -> norm (map (fun x => x / d) xs) = norm xs / d.
Proof.
  intros Hd. unfold norm. rewrite rsum_squares_div.
  rewrite sqrt_div_alt by nra.
  rewrite sqrt_square by lra. reflexivity.
Qed.

Lemma flat_map_ravel_adiv (ls : list array) d :
  flat_map ravel (map (fun g => adiv g d) ls)
  = map (fun x => x / d) (flat_map ravel ls).
Proof.
  induction ls as [| a ls IH]; simpl.
  - reflexivity.
  - now rewrite map_app, IH.
Qed.

Lemma tree_leaves_map {A B} (f : A -> B) (t : pytree A) :
  tree_leaves (tree_map f t) = map f (tree_leaves t).
Proof.
  induction t as [a | cs IH] using pytree_ind'; simpl.
  - reflexivity.
  - induction IH as [| c cs Hc _ IHcs]; simpl.
    + reflexivity.
    + now rewrite map_app, Hc, IHcs.
Qed.

Lemma tree_map_id_ext {A} (f : A -> A) (t : pytree A) :
  (forall a, In a (tree_leaves t) -> f a = a) -> tree_map f t = t.
Proof.
  induction t as [a | cs IH] using pytree_ind'; simpl; intros H.
  - f_equal. apply H. now left.
  - f_equal. induction IH as [| c cs Hc _ IHcs]; simpl in *.
    + reflexivity.
    + f_equal.
      * apply Hc. intros a Ha. apply H, in_or_app. now left.
      * apply IHcs. intros a Ha. apply H, in_or_app. now right.
Qed.

Lemma map_div_one xs : map (fun x => x / 1) xs = xs.
Proof.
  induction xs as [| x xs IH]; simpl.
  - reflexivity.
  - rewrite IH. f_equal. field.
Qed.

Lemma adiv_one a : adiv a 1 = a.
Proof. destruct a as [s r]. unfold adiv. simpl. now rewrite map_div_one. Qed.

(** * Facts about the private gradient *)

Section PrivateGradFacts.

Variable example : Type.
Variable dloss : pytree array -> example -> nat -> nat -> R.
Variable key : Type.
Variable normal_at : key -> list nat -> nat -> R.

(** The norm that [_clipped_grad] computes from the per-array norms is
    the global norm of the gradient. *)
Lemma total_grad_norm_global params ex :
  norm (map (fun neg => norm (ravel neg))
            (tree_leaves (grad_loss dloss params ex)))
  = global_norm (grad_loss dloss params ex).
Proof. apply norm_of_norms. Qed.

Lemma _clipped_grad_scales C params ex :
  _clipped_grad dloss C params ex
  = Ok (tree_map (fun g => adiv g (clip_divisor dloss C params ex))
                 (grad_loss dloss params ex)).
Proof.
  unfold _clipped_grad, tree_flatten, amax2, clip_divisor.
  rewrite total_grad_norm_global. apply tree_unflatten_map.
Qed.

Lemma _clipped_grad_tree C params ex :
  _clipped_grad dloss C params ex = Ok (clipped_tree dloss C params ex).
Proof.
  rewrite _clipped_grad_scales. f_equal.
  unfold grad_loss, clipped_tree, tree_mapi.
  rewrite tree_map_mapi_from.
  apply tree_mapi_from_ext. intros i a _.
  unfold adiv, clipped_entry. simpl. now rewrite map_map.
Qed.

Lemma stack_leaf_clipped C params batch i a :
  nth_error (tree_leaves params) i = Some a ->
  stack_leaf (map (clipped_tree dloss C params) batch) i a
  = mkBatched (shape a)
      (map (fun ex => map (clipped_entry dloss C params ex i)
                          (seq 0 (size (shape a)))) batch).
Proof.
  intros Hi. unfold stack_leaf. f_equal.
  induction batch as [| ex batch IH]; simpl.
  - reflexivity.
  - rewrite IH. unfold clipped_tree at 1, tree_mapi.
    rewrite tree_leaves_mapi_from, nth_error_mapi_from, Hi.
    reflexivity.
Qed.

Lemma private_grad_reference params batch rng C sigma B :
  private_grad dloss normal_at params batch rng C sigma B
  = Ok (dp_sgd_reference dloss normal_at params batch rng C sigma B).
Proof.
  unfold private_grad, vmap.
  rewrite (mapM_ok _ (clipped_tree dloss C params))
    by (intros; apply _clipped_grad_tree).
  simpl. f_equal.
  unfold dp_sgd_reference, tree_mapi.
  rewrite !tree_map_mapi_from.
  apply tree_mapi_from_ext. intros i a Hi. simpl in *.
  rewrite (stack_leaf_clipped _ _ _ _ _ Hi).
  unfold adiv, aadd, ascale, sum0, random_normal. simpl. f_equal.
  replace (repeat 0 (size (shape a)))
    with (map (fun _ : nat => 0) (seq 0 (size (shape a))))
    by (now rewrite <- repeat_zero_map, length_seq).
  rewrite fold_vadd_rows.
  rewrite (map_map (normal_at rng (shape a))), vadd_map, map_map.
  reflexivity.
Qed.

End PrivateGradFacts.

Section PrivateGradClaims.

Variable example : Type.
Variable dloss : pytree array -> example -> nat -> nat -> R.
Variable key : Type.
Variable normal_at : key -> list nat -> nat -> R.

Lemma global_norm_adiv t d :
  0 < d -> global_norm (tree_map (fun g => adiv g d) t) = global_norm t / d.
Proof.
  intros Hd. unfold global_norm.
  rewrite tree_leaves_map, flat_map_ravel_adiv. now apply norm_div.
Qed.

Lemma global_norm_nonneg t : 0 <= global_norm t.
Proof. apply norm_nonneg. Qed.

Lemma clip_divisor_small C params ex :
  0 < C -> global_norm (grad_loss dloss params ex) <= C ->
  clip_divisor dloss C params ex = 1.
Proof.
  intros HC Hle. unfold clip_divisor. apply Rmax_right.
  apply Rmult_le_reg_r with C; [exact HC |].
  unfold Rdiv. rewrite Rmult_assoc, Rinv_l by lra. lra.
Qed.

Lemma clip_divisor_large C params ex :
  0 < C -> C < global_norm (grad_loss dloss params ex) ->
  clip_divisor dloss C params ex = global_norm (grad_loss dloss params ex) / C.
Proof.
  intros HC Hlt. unfold clip_divisor. apply Rmax_left.
  apply Rmult_le_reg_r with C; [exact HC |].
  unfold Rdiv. rewrite Rmult_assoc, Rinv_l by lra. lra.
Qed.

(** C2.  [_clipped_grad] takes one norm over all the entries of the
    gradient of the example, laid out as a single vector; for a clip norm
    [C > 0], a gradient of norm at most [C] is returned as it is, with
    divisor 1, and a gradient of larger norm is divided by [norm / C],
    which brings its global norm to [C]. *)
Theorem clipped_grad_global_norm C params ex :
  0 < C ->
  let grads := grad_loss dloss params ex in
  let total_grad_norm :=
    norm (map (fun neg => norm (ravel neg)) (tree_leaves grads)) in
  let divisor := amax2 (total_grad_norm / C) 1 in
  total_grad_norm = norm (flat_map ravel (tree_leaves grads))
  /\ _clipped_grad dloss C params ex
     = Ok (tree_map (fun g => adiv g divisor) grads)
  /\ (total_grad_norm <= C ->
      divisor = 1 /\ _clipped_grad dloss C params ex = Ok grads)
  /\ (C < total_grad_norm ->
      divisor = total_grad_norm / C
      /\ exists clipped,
          _clipped_grad dloss C params ex = Ok clipped
          /\ global_norm clipped = C).
Proof.
  intros HC grads total divisor.
  assert (Htot : total = global_norm grads) by apply total_grad_norm_global.
  assert (Hdiv : divisor = clip_divisor dloss C params ex).
  { unfold divisor, amax2, clip_divisor. now rewrite Htot. }
  assert (Hrun : _clipped_grad dloss C params ex
                 = Ok (tree_map (fun g => adiv g divisor) grads)).
  { rewrite Hdiv. apply _clipped_grad_scales. }
  split; [exact Htot |]. split; [exact Hrun |]. split.
  - intros Hle. rewrite Htot in Hle.
    assert (H1 : divisor = 1)
      by (rewrite Hdiv; now apply clip_divisor_small).
    split; [exact H1 |].
    rewrite Hrun, H1. f_equal.
    apply tree_map_id_ext. intros a _. apply adiv_one.
  - intros Hlt. rewrite Htot in Hlt.
    assert (Hd : divisor = global_norm grads / C)
      by (rewrite Hdiv; now apply clip_divisor_large).
    split; [now rewrite Htot |].
    eexists. split; [exact Hrun |].
    assert (Hpos : 0 < divisor).
    { rewrite Hd. apply Rdiv_lt_0_compat; lra. }
    rewrite global_norm_adiv by exact Hpos.
    rewrite Hd. field. split; lra.
Qed.

Lemma tree_mapi_entries_ext (f g : nat -> list nat -> nat -> R) params :
  (forall j s k, f j s k = g j s k) ->
  tree_mapi (fun j p => mkArray (shape p) (map (f j (shape p)) (seq 0 (size (shape p))))) params
  = tree_mapi (fun j p => mkArray (shape p) (map (g j (shape p)) (seq 0 (size (shape p))))) params.
Proof.
  intros H. apply tree_mapi_from_ext. intros i a _. f_equal.
  apply map_ext. intros k. apply H.
Qed.

(** C1.  [private_grad] is the pipeline of the specification in its
    order: clip each example, sum over the batch, add noise of standard
    deviation [C * sigma], divide by [B].  With [sigma = 0], [B = 2],
    [C = 1] and two examples of gradient norms 3 and 1/2, the divisors are
    3 and 1, the clipped norms 1 and 1/2, and the result is the mean of
    the two clipped gradients. *)
Theorem private_grad_pipeline_order :
  (forall params batch rng C sigma B,
      0 < C -> 0 <= sigma -> (0 < B)%Z ->
      private_grad dloss normal_at params batch rng C sigma B
      = Ok (dp_sgd_reference dloss normal_at params batch rng C sigma B))
  /\ (forall params e1 e2 rng,
         global_norm (grad_loss dloss params e1) = 3 ->
         global_norm (grad_loss dloss params e2) = 1 / 2 ->
         exists c1 c2,
           _clipped_grad dloss 1 params e1 = Ok c1
           /\ _clipped_grad dloss 1 params e2 = Ok c2
           /\ c1 = tree_map (fun g => adiv g 3) (grad_loss dloss params e1)
           /\ c2 = tree_map (fun g => adiv g 1) (grad_loss dloss params e2)
           /\ global_norm c1 = 1
           /\ global_norm c2 = 1 / 2
           /\ private_grad dloss normal_at params [e1; e2] rng 1 0 2
              = Ok (mean_clipped dloss 1 params [e1; e2])).
Proof.
  split.
  - intros. apply private_grad_reference.
  - intros params e1 e2 rng H1 H2.
    assert (D1 : clip_divisor dloss 1 params e1 = 3).
    { rewrite clip_divisor_large; rewrite ?H1; lra. }
    assert (D2 : clip_divisor dloss 1 params e2 = 1).
    { rewrite clip_divisor_small; rewrite ?H2; lra. }
    exists (tree_map (fun g => adiv g 3) (grad_loss dloss params e1)),
           (tree_map (fun g => adiv g 1) (grad_loss dloss params e2)).
    repeat split.
    + now rewrite _clipped_grad_scales, D1.
    + now rewrite _clipped_grad_scales, D2.
    + rewrite global_norm_adiv, H1 by lra. field.
    + rewrite global_norm_adiv, H2 by lra. field.
    + rewrite private_grad_reference. f_equal.
      unfold dp_sgd_reference, mean_clipped.
      apply (tree_mapi_entries_ext
               (fun j s k => dp_sgd_entry dloss normal_at params [e1; e2] rng 1 0 2 j s k)
               (fun j s k => summed_entry dloss 1 params [e1; e2] j k
                             / INR (length [e1; e2]))).
      intros j s k. unfold dp_sgd_entry. simpl. lra.
Qed.

(** C10.  [private_grad] divides by the [batch_size] argument [B]
    whatever the number [n] of examples in the batch: for [0 < n < B]
    every entry of the result is [n / B] times the entry of the mean of
    the clipped gradients, plus the noise over [B]; without noise the
    result is that mean scaled by [n / B], a factor below 1. *)
Theorem private_grad_short_batch params batch rng C sigma B :
  (0 < length batch)%nat -> (Z.of_nat (length batch) < B)%Z ->
  private_grad dloss normal_at params batch rng C sigma B
  = Ok (tree_mapi
          (fun j p =>
             mkArray (shape p)
               (map (fun k =>
                       INR (length batch) / IZR B
                       * (summed_entry dloss C params batch j k
                          / INR (length batch))
                       + C * sigma * normal_at rng (shape p) k / IZR B)
                    (seq 0 (size (shape p)))))
          params)
  /\ (sigma = 0 ->
      private_grad dloss normal_at params batch rng C sigma B
      = Ok (tree_map (ascale (INR (length batch) / IZR B))
                     (mean_clipped dloss C params batch)))
  /\ 0 < INR (length batch) / IZR B < 1.
Proof.
  intros Hn HB.
  assert (Hn' : 0 < INR (length batch)) by (apply lt_0_INR; lia).
  assert (HB' : INR (length batch) < IZR B).
  { rewrite INR_IZR_INZ. now apply IZR_lt. }
  split; [| split].
  - rewrite private_grad_reference. f_equal.
    unfold dp_sgd_reference.
    apply (tree_mapi_entries_ext
             (fun j s k => dp_sgd_entry dloss normal_at params batch rng C sigma B j s k)
             (fun j s k =>
                INR (length batch) / IZR B
                * (summed_entry dloss C params batch j k / INR (length batch))
                + C * sigma * normal_at rng s k / IZR B)).
    intros j s k. unfold dp_sgd_entry. field. split; lra.
  - intros ->. rewrite private_grad_reference. f_equal.
    unfold dp_sgd_reference, mean_clipped, tree_mapi.
    rewrite tree_map_mapi_from.
    apply tree_mapi_from_ext. intros i a _.
    unfold ascale. simpl. f_equal. rewrite map_map.
    apply map_ext. intros k. unfold dp_sgd_entry. field. split; lra.
  - split.
    + apply Rdiv_lt_0_compat; lra.
    + apply Rmult_lt_reg_r with (IZR B); [lra |].
      unfold Rdiv. rewrite Rmult_assoc, Rinv_l by lra. lra.
Qed.

End PrivateGradClaims.

(** * Facts about sorting and slicing *)

Section ArgsortFacts.

Variable v : nat -> R.

Let le_by (a b : nat) : Prop := v a <= v b.

Lemma insert_by_perm i l : Permutation (insert_by v i l) (i :: l).
Proof.
  induction l as [| j l IH]; simpl.
  - apply Permutation_refl.
  - destruct (Rle_dec (v i) (v j)).
    + apply Permutation_refl.
    + eapply perm_trans; [apply perm_skip, IH | apply perm_swap].
Qed.

Lemma insert_by_sorted i l :
  StronglySorted le_by l -> StronglySorted le_by (insert_by v i l).
Proof.
  induction 1 as [| j l Hs IH Hall]; simpl.
  - repeat constructor.
  - destruct (Rle_dec (v i) (v j)) as [Hle | Hgt].
    + constructor; [now constructor |].
      constructor; [exact Hle |].
      eapply Forall_impl; [| exact Hall].
      intros a Ha. unfold le_by in *. lra.
    + constructor; [exact IH |].
      apply Forall_forall. intros a Ha.
      apply (Permutation_in _ (insert_by_perm i l)) in Ha.
      destruct Ha as [<- | Ha].
      * unfold le_by. lra.
      * rewrite Forall_forall in Hall. now apply Hall.
Qed.

Lemma fold_insert_by_perm l :
  Permutation (fold_right (insert_by v) [] l) l.
Proof.
  induction l as [| i l IH]; simpl.
  - constructor.
  - eapply perm_trans; [apply insert_by_perm | now apply perm_skip].
Qed.

Lemma fold_insert_by_sorted l :
  StronglySorted le_by (fold_right (insert_by v) [] l).
Proof.
  induction l as [| i l IH]; simpl.
  - constructor.
  - now apply insert_by_sorted.
Qed.

End ArgsortFacts.

Lemma argsort_perm xs : Permutation (argsort xs) (seq 0 (length xs)).
Proof. apply fold_insert_by_perm. Qed.

Lemma argsort_sorted xs :
  StronglySorted (fun a b => nth a xs 0 <= nth b xs 0) (argsort xs).
Proof. apply (fold_insert_by_sorted (fun i => nth i xs 0)). Qed.

Lemma argsort_length xs : length (argsort xs) = length xs.
Proof.
  rewrite (Permutation_length (argsort_perm xs)). apply length_seq.
Qed.

Lemma argsort_NoDup xs : NoDup (argsort xs).
Proof.
  apply (Permutation_NoDup (Permutation_sym (argsort_perm xs))), seq_NoDup.
Qed.

Lemma argsort_In xs i : In i (argsort xs) <-> (i < length xs)%nat.
Proof.
  split; intros H.
  - apply (Permutation_in _ (argsort_perm xs)), in_seq in H. lia.
  - apply (Permutation_in _ (Permutation_sym (argsort_perm xs))), in_seq. lia.
Qed.

Lemma StronglySorted_app_inv {A} (Rel : A -> A -> Prop) l1 l2 :
  StronglySorted Rel (l1 ++ l2) ->
  forall a b, In a l1 -> In b l2 -> Rel a b.
Proof.
  induction l1 as [| x l1 IH]; simpl; intros Hs a b Ha Hb.
  - contradiction.
  - inversion Hs as [| ? ? Hs' Hall]; subst.
    destruct Ha as [<- | Ha].
    + rewrite Forall_forall in Hall. apply Hall, in_or_app. now right.
    + now apply IH.
Qed.

Lemma StronglySorted_rev {A} (Rel : A -> A -> Prop) l :
  StronglySorted Rel l -> StronglySorted (fun a b => Rel b a) (rev l).
Proof.
  induction 1 as [| x l Hs IH Hall]; simpl.
  - constructor.
  - clear Hs. induction (rev l) as [| y r IHr] eqn:E in IH, Hall, l |- *.
    + repeat constructor.
    + assert (Hin : forall z, In z (y :: r) -> Rel x z).
      { intros z Hz. rewrite Forall_forall in Hall. apply Hall.
        apply in_rev. now rewrite E. }
      clear E Hall IHr.
      induction IH as [| y' r' Hs' IH' Hall']; simpl.
      * repeat constructor.
      * constructor.
        -- apply IH'. intros z Hz. apply Hin. now right.
        -- apply Forall_forall. intros z Hz.
           apply in_app_or in Hz. destruct Hz as [Hz | [<- | []]].
           ++ rewrite Forall_forall in Hall'. now apply Hall'.
           ++ apply Hin. now left.
  Qed.

Lemma firstn_incl {A} (k : nat) (l : list A) a : In a (firstn k l) -> In a l.
Proof.
  intros H. rewrite <- (firstn_skipn k l). apply in_or_app. now left.
Qed.

Lemma py_take_nonneg {A} (k : Z) (l : list A) :
  (0 <= k)%Z -> py_take k l = firstn (Z.to_nat k) l.
Proof.
  intros Hk. unfold py_take.
  destruct (Z.ltb_spec k 0); [lia | reflexivity].
Qed.

(** The first [k] of a list without repeats, sorted by [Rel]: [k] distinct
    entries, each related to every entry left out. *)
Lemma firstn_sorted_split {A} (Rel : A -> A -> Prop) (l : list A) (k : nat) :
  (k <= length l)%nat -> NoDup l -> StronglySorted Rel l ->
  length (firstn k l) = k
  /\ NoDup (firstn k l)
  /\ (forall a b, In a (firstn k l) -> In b l -> ~ In b (firstn k l) -> Rel a b).
Proof.
  intros Hk Hnd Hs.
  rewrite <- (firstn_skipn k l) in Hnd, Hs.
  split; [| split].
  - apply firstn_length_le, Hk.
  - now apply NoDup_app_remove_r in Hnd.
  - intros a b Ha Hb Hnb.
    apply (StronglySorted_app_inv _ _ _ Hs); [exact Ha |].
    rewrite <- (firstn_skipn k l) in Hb.
    apply in_app_or in Hb. tauto.
Qed.

(** * Pool selection *)

Lemma log_min_max_nonempty scores :
  (0 < length scores)%nat -> log_min_max scores = Ok tt.
Proof. destruct scores; simpl; [lia | reflexivity]. Qed.

Lemma take_indices_length scores indices :
  length (take_indices scores indices) = length indices.
Proof. apply length_map. Qed.

(** C5.  Under the entropy criterion the score of a pool example is
    [- sum p * log p] over its probabilities, which are positive, and for
    [0 <= k <= pool size] the selection has exactly [k] indices, all of
    them in the pool, no index twice, and every selected index has an
    entropy at least that of every index left out; for [k >= 1] the
    branch of [main] returns that selection. *)
Theorem entropy_indices_most_uncertain (pool_probs : list (list R)) (k : Z) :
  (forall row p, In row pool_probs -> In p row -> 0 < p) ->
  (0 <= k <= Z.of_nat (length pool_probs))%Z ->
  let picked := entropy_indices pool_probs k in
  (forall row, entropy row = - rsum (map (fun p => p * ln p) row))
  /\ length picked = Z.to_nat k
  /\ NoDup picked
  /\ (forall i, In i picked -> (i < length pool_probs)%nat)
  /\ (forall i j,
         In i picked -> (j < length pool_probs)%nat -> ~ In j picked ->
         entropy (nth j pool_probs []) <= entropy (nth i pool_probs []))
  /\ ((1 <= k)%Z -> entropy_branch pool_probs k = Ok picked).
Proof.
  intros _ Hk picked.
  set (es := map entropy pool_probs).
  assert (Hlen : length es = length pool_probs) by apply length_map.
  assert (Hpicked : picked = firstn (Z.to_nat k) (rev (argsort es))).
  { unfold picked, entropy_indices. now rewrite py_take_nonneg by lia. }
  destruct (firstn_sorted_split
              (fun a b => nth b es 0 <= nth a es 0)
              (rev (argsort es)) (Z.to_nat k)) as (H1 & H2 & H3).
  - rewrite length_rev, argsort_length, Hlen. lia.
  - apply NoDup_rev, argsort_NoDup.
  - apply (StronglySorted_rev _ _ (argsort_sorted es)).
  - rewrite <- Hpicked in H1, H2, H3.
    assert (Hin : forall i, In i picked -> (i < length pool_probs)%nat).
    { intros i Hi. rewrite Hpicked in Hi. apply firstn_incl in Hi.
      apply in_rev, argsort_In in Hi. lia. }
    split; [reflexivity |]. split; [exact H1 |]. split; [exact H2 |].
    split; [exact Hin |].
    split; cycle 1.
    { intros Hk1. unfold entropy_branch. fold es. fold picked.
      rewrite log_min_max_nonempty by lia.
      rewrite log_min_max_nonempty
        by (rewrite take_indices_length, H1; lia).
      reflexivity. }
    intros i j Hi Hj Hnj.
    assert (Hval : forall n, (n < length pool_probs)%nat ->
                             nth n es 0 = entropy (nth n pool_probs [])).
    { intros n Hn. unfold es.
      rewrite (nth_indep _ 0 (entropy [])) by (rewrite length_map; exact Hn).
      apply map_nth. }
    rewrite <- (Hval i), <- (Hval j) by auto.
    apply (H3 i j Hi); [| exact Hnj].
    apply -> in_rev. apply argsort_In. lia.
Qed.

(** ** The difference criterion *)

Lemma insert_sorted_perm x l : Permutation (insert_sorted x l) (x :: l).
Proof.
  induction l as [| y l IH]; simpl.
  - apply Permutation_refl.
  - destruct (Rle_dec x y).
    + apply Permutation_refl.
    + eapply perm_trans; [apply perm_skip, IH | apply perm_swap].
Qed.

Lemma insert_sorted_sorted x l :
  StronglySorted Rle l -> StronglySorted Rle (insert_sorted x l).
Proof.
  induction 1 as [| y l Hs IH Hall]; simpl.
  - repeat constructor.
  - destruct (Rle_dec x y) as [Hle | Hgt].
    + constructor; [now constructor |].
      constructor; [exact Hle |].
      eapply Forall_impl; [| exact Hall]. intros a Ha. simpl in Ha. lra.
    + constructor; [exact IH |].
      apply Forall_forall. intros a Ha.
      apply (Permutation_in _ (insert_sorted_perm x l)) in Ha.
      destruct Ha as [<- | Ha].
      * lra.
      * rewrite Forall_forall in Hall. now apply Hall.
Qed.

Lemma sort_row_perm row : Permutation (sort_row row) row.
Proof.
  induction row as [| x row IH]; simpl.
  - constructor.
  - eapply perm_trans; [apply insert_sorted_perm | now apply perm_skip].
Qed.

Lemma sort_row_sorted row : StronglySorted Rle (sort_row row).
Proof.
  induction row as [| x row IH]; simpl.
  - constructor.
  - now apply insert_sorted_sorted.
Qed.

(** The difference of a row is its largest entry minus the largest of the
    remaining ones. *)
Lemma row_diff_top_two row d :
  row_diff row = Ok d ->
  exists top1 top2 others,
    Permutation row (top1 :: top2 :: others)
    /\ top2 <= top1
    /\ (forall x, In x others -> x <= top2)
    /\ d = top1 - top2.
Proof.
  unfold row_diff. intros H.
  pose proof (StronglySorted_rev _ _ (sort_row_sorted row)) as Hs.
  pose proof (sort_row_perm row) as Hp.
  destruct (rev (sort_row row)) as [| a [| b others]] eqn:E;
    try discriminate.
  injection H as <-.
  exists a, b, others. repeat split.
  - rewrite <- E. apply Permutation_sym.
    eapply perm_trans; [| exact Hp]. apply Permutation_sym, Permutation_rev.
  - inversion Hs as [| ? ? _ Hall]; subst.
    rewrite Forall_forall in Hall. apply Hall. now left.
  - intros x Hx. inversion Hs as [| ? ? Hs' _]; subst.
    inversion Hs' as [| ? ? _ Hall]; subst.
    rewrite Forall_forall in Hall. now apply Hall.
Qed.

Lemma row_diff_nonneg row d : row_diff row = Ok d -> 0 <= d.
Proof.
  intros H. destruct (row_diff_top_two _ _ H) as (a & b & o & _ & Hle & _ & ->).
  lra.
Qed.

Lemma fold_left_Rmin_le xs : forall x,
  fold_left Rmin xs x <= x
  /\ (forall y, In y xs -> fold_left Rmin xs x <= y).
Proof.
  induction xs as [| z xs IH]; simpl; intros x.
  - split; [lra | intros y []].
  - destruct (IH (Rmin x z)) as [H1 H2].
    pose proof (Rmin_l x z). pose proof (Rmin_r x z).
    split; [lra |].
    intros y [<- | Hy]; [lra | now apply H2].
Qed.

Lemma fold_left_Rmin_In xs : forall x,
  fold_left Rmin xs x = x \/ In (fold_left Rmin xs x) xs.
Proof.
  induction xs as [| z xs IH]; simpl; intros x.
  - now left.
  - destruct (IH (Rmin x z)) as [H | H].
    + rewrite H. unfold Rmin. destruct (Rle_dec x z); auto.
    + auto.
Qed.

Lemma py_min_spec xs m :
  py_min xs = Ok m -> In m xs /\ (forall y, In y xs -> m <= y).
Proof.
  destruct xs as [| x xs]; simpl; [discriminate |].
  intros H. injection H as <-.
  destruct (fold_left_Rmin_le xs x) as [H1 H2].
  split.
  - destruct (fold_left_Rmin_In xs x) as [-> | H]; auto.
  - intros y [<- | Hy]; auto.
Qed.

Ltac decide_Rle :=
  repeat (simpl;
          match goal with
          | |- context [Rle_dec ?a ?b] => destruct (Rle_dec a b); try lra
          | |- context [Rlt_dec ?a ?b] => destruct (Rlt_dec a b); try lra
          end).

Lemma difference_branch_raises probs diffs k :
  mapM row_diff probs = Ok diffs ->
  (exists d, In d diffs /\ d <= 0) ->
  difference_branch probs k = Raise AssertionError.
Proof.
  intros Hd (d & Hin & Hle). unfold difference_branch. rewrite Hd. simpl.
  destruct (py_min diffs) as [m | e] eqn:Hm.
  - simpl. destruct (py_min_spec _ _ Hm) as [_ Hmin].
    specialize (Hmin d Hin).
    destruct (Rlt_dec 0 m); [lra | reflexivity].
  - destruct diffs; [contradiction | discriminate].
Qed.

Lemma difference_branch_passes probs diffs k :
  mapM row_diff probs = Ok diffs ->
  (forall d, In d diffs -> 0 < d) ->
  (1 <= k <= Z.of_nat (length diffs))%Z ->
  difference_branch probs k = Ok (py_take k (argsort diffs)).
Proof.
  intros Hd Hpos Hk. unfold difference_branch. rewrite Hd. simpl.
  assert (Hne : (0 < length diffs)%nat) by lia.
  destruct (py_min diffs) as [m | e] eqn:Hm.
  - simpl. destruct (py_min_spec _ _ Hm) as [Hin _].
    specialize (Hpos m Hin).
    destruct (Rlt_dec 0 m); [| lra].
    rewrite log_min_max_nonempty by exact Hne.
    rewrite log_min_max_nonempty; [reflexivity |].
    rewrite take_indices_length, py_take_nonneg by lia.
    rewrite firstn_length_le; [lia |].
    rewrite argsort_length. lia.
  - destruct diffs; [simpl in Hne; lia | discriminate].
Qed.


(** ** Pool diagnostics *)

Lemma mapM_total {A B} (f : A -> result B) xs :
  (forall x, In x xs -> exists y, f x = Ok y) -> exists ys, mapM f xs = Ok ys.
Proof.
  induction xs as [| x xs IH]; simpl; intros H.
  - now eexists.
  - destruct (H x (or_introl eq_refl)) as [y ->].
    destruct IH as [ys ->]; [intros; apply H; now right |].
    now eexists.
Qed.

Lemma argmax_total row : row <> [] -> exists i, argmax row = Ok i.
Proof. destruct row; [congruence | intros _; now eexists]. Qed.

Lemma mapM_argmax_raises rows e : mapM argmax rows = Raise e -> e = ValueError.
Proof.
  induction rows as [| row rows IH]; simpl; [discriminate |].
  destruct row as [| x row]; simpl; [congruence |].
  destruct (mapM argmax rows); simpl; [discriminate | exact IH].
Qed.

Lemma compare_vectors_same_length op xs ys :
  length xs = length ys ->
  compare_vectors op xs ys
  = Ok (map (fun xy => op (fst xy) (snd xy)) (combine xs ys)).
Proof.
  intros H. unfold compare_vectors.
  destruct xs as [| x [| x' xs]]; destruct ys as [| y [| y' ys]];
    try discriminate; try reflexivity.
  rewrite H, Nat.eqb_refl. reflexivity.
Qed.

Lemma where_from_In mask : forall s j,
  In j (where_from s mask)
  <-> (s <= j)%nat /\ nth_error mask (j - s) = Some true.
Proof.
  induction mask as [| b mask IH]; intros s j; simpl.
  - split; [intros [] | intros [_ H]].
    now destruct (j - s)%nat.
  - assert (Hstep : (s <= j)%nat /\ nth_error (b :: mask) (j - s) = Some true
                    <-> (j = s /\ b = true)
                        \/ ((S s <= j)%nat
                            /\ nth_error mask (j - S s) = Some true)).
    { split.
      - intros [Hle Hn]. destruct (j - s)%nat as [| d] eqn:E.
        + left. split; [lia |]. simpl in Hn. congruence.
        + right. split; [lia |]. simpl in Hn.
          now replace (j - S s)%nat with d by lia.
      - intros [[-> ->] | [Hle Hn]].
        + split; [lia |]. now rewrite Nat.sub_diag.
        + split; [lia |].
          replace (j - s)%nat with (S (j - S s)) by lia. exact Hn. }
    rewrite Hstep. destruct b; simpl; rewrite IH.
    + split.
      * intros [<- | H]; [now left | now right].
      * intros [[-> _] | H]; [now left | now right].
    + split.
      * intros H; now right.
      * intros [[_ Hb] | H]; [discriminate | exact H].
Qed.

Lemma where_complement {P} (f : P -> bool) (ps : list P) : forall s,
  (length (where_from s (map f ps))
   + length (where_from s (map (fun p => negb (f p)) ps)))%nat
  = length ps.
Proof.
  induction ps as [| p ps IH]; intros s; simpl.
  - reflexivity.
  - destruct (f p); simpl; rewrite <- (IH (S s)); lia.
Qed.

(** C9.  For a pool with one row of logits and one row of labels per
    example, the positions classified correctly and those classified
    incorrectly add up to the pool size: the assertion on the two counts
    never raises, every position of the pool is in exactly one of the two
    lists, and the diagnostic returns whenever no row is empty. *)
Theorem pool_diagnostic_counts (pool_logits pool_labels : list (list R)) :
  length pool_logits = length pool_labels ->
  pool_diagnostic pool_logits pool_labels <> Raise AssertionError
  /\ (forall correct incorrect,
         pool_diagnostic pool_logits pool_labels = Ok (correct, incorrect) ->
         (length correct + length incorrect)%nat = length pool_labels
         /\ (forall j, (j < length pool_labels)%nat ->
                       (In j correct /\ ~ In j incorrect)
                       \/ (In j incorrect /\ ~ In j correct)))
  /\ ((forall row, In row pool_logits -> row <> []) ->
      (forall row, In row pool_labels -> row <> []) ->
      exists correct incorrect,
        pool_diagnostic pool_logits pool_labels = Ok (correct, incorrect)).
Proof.
  intros Hlen.
  assert (Hrun : forall t p,
             mapM argmax pool_labels = Ok t ->
             mapM argmax pool_logits = Ok p ->
             pool_diagnostic pool_logits pool_labels
             = Ok (where_ (map (fun xy => (fst xy =? snd xy)%nat) (combine t p)),
                   where_ (map (fun xy => negb (fst xy =? snd xy)%nat)
                               (combine t p)))
             /\ length (combine t p) = length pool_labels).
  { intros t p Ht Hp. unfold pool_diagnostic. rewrite Ht, Hp. simpl.
    pose proof (mapM_length _ _ _ Ht) as Lt.
    pose proof (mapM_length _ _ _ Hp) as Lp.
    assert (Ltp : length t = length p) by congruence.
    rewrite !compare_vectors_same_length by exact Ltp. simpl.
    assert (Lc : length (combine t p) = length pool_labels).
    { rewrite length_combine. lia. }
    unfold where_. rewrite where_complement, Lc, Nat.eqb_refl. now split. }
  split; [| split].
  - unfold pool_diagnostic at 1.
    destruct (mapM argmax pool_labels) as [t | e] eqn:Ht;
      [| apply mapM_argmax_raises in Ht; subst; discriminate].
    destruct (mapM argmax pool_logits) as [p | e] eqn:Hp;
      [| apply mapM_argmax_raises in Hp; subst; discriminate].
    destruct (Hrun t p eq_refl eq_refl) as [Heq _].
    unfold pool_diagnostic in Heq. rewrite Ht, Hp in Heq.
    rewrite Heq. discriminate.
  - intros correct incorrect Hok.
    destruct (mapM argmax pool_labels) as [t | e] eqn:Ht;
      [| unfold pool_diagnostic in Hok; rewrite Ht in Hok; discriminate].
    destruct (mapM argmax pool_logits) as [p | e] eqn:Hp;
      [| unfold pool_diagnostic in Hok; rewrite Ht, Hp in Hok; discriminate].
    destruct (Hrun t p eq_refl eq_refl) as [Heq Lc].
    rewrite Heq in Hok. injection Hok as <- <-.
    split.
    + unfold where_. now rewrite where_complement.
    + intros j Hj. unfold where_. rewrite !where_from_In.
      rewrite Nat.sub_0_r, !nth_error_map.
      rewrite <- Lc in Hj. apply nth_error_Some in Hj.
      destruct (nth_error (combine t p) j) as [xy |]; [| congruence].
      simpl. destruct (fst xy =? snd xy)%nat; simpl.
      * left. split; [split; [lia | reflexivity] |].
        intros [_ H]; discriminate.
      * right. split; [split; [lia | reflexivity] |].
        intros [_ H]; discriminate.
  - intros Hlog Hlab.
    destruct (mapM_total argmax pool_labels) as [t Ht];
      [intros; now apply argmax_total, Hlab |].
    destruct (mapM_total argmax pool_logits) as [p Hp];
      [intros; now apply argmax_total, Hlog |].
    destruct (Hrun t p Ht Hp) as [Heq _]. eauto.
Qed.

(** * The fine-tuning loop and the sources of randomness *)

Section Randomness.

Variable npr_state : Type.
Variable seeded_state : Z -> npr_state.
Variable npr_permutation : npr_state -> nat -> list nat * npr_state.
Variable softmax : list R -> list R.
Variable key : Type.
Variable PRNGKey : Z -> key.
Variable fold_in : key -> nat -> key.
Variable normal_at : key -> list nat -> nat -> R.
Variable example : Type.
Variable dloss : pytree array -> example -> nat -> nat -> R.
Variable batch_grad : pytree array -> list example -> pytree array.
Variable opt_state : Type.
Variable get_params : opt_state -> pytree array.
Variable opt_update : nat -> pytree array -> opt_state -> opt_state.

Lemma run_batches_keys F batches : forall i0 st,
  dpsgd F = true ->
  run_batches fold_in normal_at dloss batch_grad get_params opt_update
              F (PRNGKey (seed F)) i0 st batches
  = fold_result (keyed_private_step PRNGKey fold_in normal_at dloss get_params
                                    opt_update F)
                (combine (seq i0 (length batches)) batches) st.
Proof.
  induction batches as [| b rest IH]; intros i0 st HF; simpl.
  - reflexivity.
  - rewrite HF. unfold keyed_private_step at 1, private_update. simpl.
    destruct (private_grad _ _ _ _ _ _ _ _); simpl.
    + now apply IH.
    + reflexivity.
Qed.

(** C7, as the code has it.  In a private epoch the key of batch [i] is
    [fold_in (PRNGKey seed) i], with [i] counted from 0 in that epoch, so
    the noise depends on the seed flag, that index and the array shape
    only.  The random criterion has no seed of its own: it reads the
    global numpy generator, and since [main] seeds that generator from
    the seed flag first, the selection of [main] is the same for every
    state the generator had at start-up. *)
Theorem randomness_from_seed_flag F :
  (forall st batches,
      dpsgd F = true ->
      run_epoch PRNGKey fold_in normal_at dloss batch_grad get_params
                opt_update F st batches
      = fold_result (keyed_private_step PRNGKey fold_in normal_at dloss get_params
                                    opt_update F)
                    (combine (seq 0 (length batches)) batches) st)
  /\ (forall ambient ambient' pool_logits pool_labels,
         pool_uncertain_indices seeded_state npr_permutation softmax F
                                ambient pool_logits pool_labels
         = pool_uncertain_indices seeded_state npr_permutation softmax F
                                  ambient' pool_logits pool_labels)
  /\ (forall ambient n_pool n_extra,
         fst (random_indices npr_permutation ambient n_pool n_extra)
         = py_take n_extra (fst (npr_permutation ambient n_pool)))
  /\ (forall ambient pool_logits pool_labels picked,
         uncertain F = 2%Z ->
         pool_uncertain_indices seeded_state npr_permutation softmax F
                                ambient pool_logits pool_labels = Ok picked ->
         picked = py_take (n_extra F)
                    (fst (npr_permutation (seeded_state (seed F))
                                          (length pool_logits)))).
Proof.
  assert (Hrand : forall ambient n_pool n_extra,
             fst (random_indices npr_permutation ambient n_pool n_extra)
             = py_take n_extra (fst (npr_permutation ambient n_pool))).
  { intros ambient n_pool n_extra. unfold random_indices.
    now destruct (npr_permutation ambient n_pool). }
  split; [| split; [| split]].
  - intros st batches HF. unfold run_epoch. now apply run_batches_keys.
  - reflexivity.
  - exact Hrand.
  - intros ambient pool_logits pool_labels picked Hu.
    unfold pool_uncertain_indices, npr_seed. rewrite Hu.
    destruct ((0 <=? seed F) && (seed F <? 2 ^ 32))%Z; [| discriminate].
    simpl bind at 1.
    destruct (pool_diagnostic pool_logits pool_labels); [| discriminate].
    simpl. rewrite Hrand.
    destruct (n_extra F =? _)%Z; [| discriminate].
    intros H. now injection H as <-.
Qed.

End Randomness.

(** * The shared noise key and the accountant *)

Section NoiseKey.

Variable example : Type.
Variable dloss : pytree array -> example -> nat -> nat -> R.
Variable key : Type.
Variable normal_at : key -> list nat -> nat -> R.

(** C3, as the code has it.  [noise_] draws with the one key [rng] for
    every leaf: two parameter arrays of one shape receive the same
    samples [normal_at rng shp k], and on an empty batch the two leaves
    of the result are one and the same array. *)
Theorem private_grad_reuses_key shp r1 r2 batch rng C sigma B :
  let params := Node [Leaf (mkArray shp r1); Leaf (mkArray shp r2)] in
  let noisy j k :=
    (summed_entry dloss C params batch j k
     + C * sigma * normal_at rng shp k) / IZR B in
  private_grad dloss normal_at params batch rng C sigma B
  = Ok (Node [Leaf (mkArray shp (map (noisy 0%nat) (seq 0 (size shp))));
              Leaf (mkArray shp (map (noisy 1%nat) (seq 0 (size shp))))])
  /\ exists z,
      private_grad dloss normal_at params [] rng C sigma B
      = Ok (Node [Leaf z; Leaf z]).
Proof.
  intros params noisy. split.
  - rewrite private_grad_reference. reflexivity.
  - eexists. rewrite private_grad_reference. reflexivity.
Qed.

End NoiseKey.

Section AccountantFacts.

Variable compute_rdp : R -> R -> Z -> list R -> list R.
Variable get_privacy_spent : list R -> list R -> R -> R * R * R.

(** C4, as the code has it.  The warning is issued exactly when
    [num_examples * target_delta > 1], but no epsilon is returned for any
    argument: the sum of a list and a range raises TypeError (and a
    pool of zero examples raises ZeroDivisionError before that). *)
Theorem compute_epsilon_raises F steps num_examples target_delta :
  fst (compute_epsilon compute_rdp get_privacy_spent F steps num_examples
                       target_delta)
  = (if Rlt_dec 1 (IZR num_examples * target_delta)
     then ["Your delta might be too high."%string] else [])
  /\ snd (compute_epsilon compute_rdp get_privacy_spent F steps num_examples
                          target_delta)
     = (if Z.eq_dec num_examples 0 then Raise ZeroDivisionError
        else Raise TypeError).
Proof.
  split; [reflexivity |].
  unfold compute_epsilon, py_truediv. simpl.
  destruct (Req_dec_T (IZR num_examples) 0) as [H0 | H0];
    destruct (Z.eq_dec num_examples 0) as [Hz | Hz]; simpl.
  - reflexivity.
  - apply eq_IZR_R0 in H0. contradiction.
  - subst. contradiction.
  - reflexivity.
Qed.

End AccountantFacts.

(** * The theorems at concrete inputs *)

Lemma sample_norm_true :
  global_norm (grad_loss sample_dloss sample_params true) = 3.
Proof.
  unfold global_norm, norm, rsum. simpl.
  apply sqrt_lem_1; lra.
Qed.

Lemma sample_norm_false :
  global_norm (grad_loss sample_dloss sample_params false) = 1 / 2.
Proof.
  unfold global_norm, norm, rsum. simpl.
  apply sqrt_lem_1; lra.
Qed.

Lemma private_grad_pipeline_order_witness :
  (0 < 1 /\ 0 <= 0 /\ (0 < 2)%Z
   /\ private_grad sample_dloss sample_normal sample_params [true; false]
                   0%nat 1 0 2
      = Ok (dp_sgd_reference sample_dloss sample_normal sample_params
                             [true; false] 0%nat 1 0 2))
  /\ (global_norm (grad_loss sample_dloss sample_params true) = 3
      /\ global_norm (grad_loss sample_dloss sample_params false) = 1 / 2
      /\ private_grad sample_dloss sample_normal sample_params [true; false]
                      0%nat 1 0 2
         = Ok (mean_clipped sample_dloss 1 sample_params [true; false])).
Proof.
  pose proof (private_grad_pipeline_order bool sample_dloss nat sample_normal)
    as [Hgen Hscen].
  split.
  - assert (H1 : 0 < 1) by lra.
    assert (H2 : 0 <= 0) by lra.
    assert (H3 : (0 < 2)%Z) by reflexivity.
    repeat split; try assumption.
    exact (Hgen sample_params [true; false] 0%nat 1 0 2%Z H1 H2 H3).
  - destruct (Hscen sample_params true false 0%nat
                    sample_norm_true sample_norm_false)
      as (c1 & c2 & _ & _ & _ & _ & _ & _ & Hrun).
    repeat split.
    + exact sample_norm_true.
    + exact sample_norm_false.
    + exact Hrun.
Defined.

Lemma clipped_grad_global_norm_witness :
  0 < 1
  /\ (exists clipped,
         _clipped_grad sample_dloss 1 sample_params true = Ok clipped
         /\ global_norm clipped = 1)
  /\ _clipped_grad sample_dloss 1 sample_params false
     = Ok (grad_loss sample_dloss sample_params false).
Proof.
  assert (HC : 0 < 1) by lra.
  split; [exact HC |]. split.
  - destruct (clipped_grad_global_norm bool sample_dloss 1 sample_params true HC)
      as (Htot & _ & _ & Hlarge).
    apply Hlarge.
    rewrite Htot. fold (global_norm (grad_loss sample_dloss sample_params true)).
    rewrite sample_norm_true. lra.
  - destruct (clipped_grad_global_norm bool sample_dloss 1 sample_params false HC)
      as (Htot & _ & Hsmall & _).
    apply Hsmall.
    rewrite Htot. fold (global_norm (grad_loss sample_dloss sample_params false)).
    rewrite sample_norm_false. lra.
Defined.

Lemma private_grad_short_batch_witness :
  (0 < length [true])%nat
  /\ (Z.of_nat (length [true]) < 2)%Z
  /\ private_grad sample_dloss sample_normal sample_params [true] 0%nat 1 0 2
     = Ok (tree_map (ascale (INR 1 / IZR 2))
                    (mean_clipped sample_dloss 1 sample_params [true]))
  /\ 0 < INR 1 / IZR 2 < 1.
Proof.
  assert (Hn : (0 < length [true])%nat) by (simpl; lia).
  assert (HB : (Z.of_nat (length [true]) < 2)%Z) by (simpl; lia).
  destruct (private_grad_short_batch bool sample_dloss nat sample_normal
              sample_params [true] 0%nat 1 0 2 Hn HB) as (_ & Hmean & Hlt).
  split; [exact Hn |]. split; [exact HB |].
  split; [exact (Hmean eq_refl) | exact Hlt].
Defined.

Lemma sample_entropies : entropy [1 / 4; 3 / 4] < entropy [1 / 2; 1 / 2].
Proof.
  unfold entropy, rsum. simpl.
  replace (1 / 2) with (/ 2) by lra.
  replace (1 / 4) with (/ (2 * 2)) by lra.
  replace (3 / 4) with (3 * / (2 * 2)) by lra.
  rewrite (ln_mult 3 (/ (2 * 2))) by lra.
  rewrite !ln_Rinv by lra. rewrite (ln_mult 2 2) by lra.
  assert (H : ln (2 ^ 4) < ln (3 ^ 3)) by (apply ln_increasing; lra).
  rewrite !ln_pow in H by lra. simpl in H. lra.
Qed.

Lemma entropy_indices_most_uncertain_witness :
  (forall row p, In row [[1 / 2; 1 / 2]; [1 / 4; 3 / 4]] -> In p row -> 0 < p)
  /\ (0 <= 1 <= Z.of_nat (length [[1 / 2; 1 / 2]; [1 / 4; 3 / 4]]))%Z
  /\ entropy [1 / 4; 3 / 4] < entropy [1 / 2; 1 / 2]
  /\ entropy_indices [[1 / 2; 1 / 2]; [1 / 4; 3 / 4]] 1 = [0%nat]
  /\ entropy_branch [[1 / 2; 1 / 2]; [1 / 4; 3 / 4]] 1 = Ok [0%nat].
Proof.
  assert (Hpos : forall row p,
             In row [[1 / 2; 1 / 2]; [1 / 4; 3 / 4]] -> In p row -> 0 < p).
  { intros row p [<- | [<- | []]] [<- | [<- | []]]; lra. }
  assert (Hk : (0 <= 1 <= Z.of_nat (length [[1 / 2; 1 / 2]; [1 / 4; 3 / 4]]))%Z)
    by (simpl; lia).
  destruct (entropy_indices_most_uncertain
              [[1 / 2; 1 / 2]; [1 / 4; 3 / 4]] 1 Hpos Hk)
    as (_ & Hlen & Hnd & Hin & Hord & Hrun).
  assert (Hrun' := Hrun ltac:(lia)). clear Hrun.
  assert (Hpick : entropy_indices [[1 / 2; 1 / 2]; [1 / 4; 3 / 4]] 1 = [0%nat]).
  { destruct (entropy_indices [[1 / 2; 1 / 2]; [1 / 4; 3 / 4]] 1)
      as [| i [| i' rest]]; try discriminate Hlen.
    assert (Hi : (i < 2)%nat) by (apply Hin; left; reflexivity).
    destruct i as [| [| i]]; [reflexivity | | lia].
    exfalso.
    assert (H : entropy [1 / 2; 1 / 2] <= entropy [1 / 4; 3 / 4]).
    { apply (Hord 1%nat 0%nat); [left; reflexivity | simpl; lia |].
      intros [H | []]. discriminate H. }
    pose proof sample_entropies. lra. }
  split; [exact Hpos |]. split; [exact Hk |].
  split; [exact sample_entropies |]. split; [exact Hpick |].
  rewrite Hrun'. f_equal. exact Hpick.
Defined.

Lemma sample_row_diffs :
  mapM row_diff [[9 / 10; 1 / 10]; [6 / 10; 4 / 10]] = Ok [8 / 10; 2 / 10].
Proof.
  unfold row_diff, sort_row. decide_Rle. simpl.
  f_equal. f_equal; [lra | f_equal; lra].
Qed.


Lemma pool_diagnostic_counts_witness :
  length [[1; 2]; [3; 0]] = length [[0; 1]; [0; 1]]
  /\ pool_diagnostic [[1; 2]; [3; 0]] [[0; 1]; [0; 1]] <> Raise AssertionError
  /\ exists correct incorrect,
      pool_diagnostic [[1; 2]; [3; 0]] [[0; 1]; [0; 1]]
      = Ok (correct, incorrect)
      /\ (length correct + length incorrect)%nat = 2%nat.
Proof.
  assert (Hlen : length [[1; 2]; [3; 0]] = length [[0; 1]; [0; 1]])
    by reflexivity.
  destruct (pool_diagnostic_counts [[1; 2]; [3; 0]] [[0; 1]; [0; 1]] Hlen)
    as (Hno & Hsum & Htotal).
  split; [exact Hlen |]. split; [exact Hno |].
  destruct Htotal as (correct & incorrect & Hrun).
  - intros row [<- | [<- | []]]; discriminate.
  - intros row [<- | [<- | []]]; discriminate.
  - exists correct, incorrect. split; [exact Hrun |].
    exact (proj1 (Hsum correct incorrect Hrun)).
Defined.

Lemma sample_random_selection :
  pool_uncertain_indices sample_seeded_state sample_permutation sample_softmax
                         sample_flags 5%nat [[1; 2]; [3; 0]] [[0; 1]; [0; 1]]
  = Ok [0%nat; 1%nat].
Proof.
  unfold pool_uncertain_indices, pool_diagnostic. simpl.
  decide_Rle. reflexivity.
Qed.

Lemma randomness_from_seed_flag_witness :
  (dpsgd sample_flags = true
   /\ run_epoch sample_PRNGKey sample_fold_in sample_normal sample_dloss
                (fun params _ => params) (fun st : pytree array => st)
                (fun _ g _ => g) sample_flags sample_params [[true]; [false]]
      = fold_result
          (keyed_private_step sample_PRNGKey sample_fold_in sample_normal
                              sample_dloss (fun st : pytree array => st)
                              (fun _ g _ => g) sample_flags)
          [(0%nat, [true]); (1%nat, [false])] sample_params)
  /\ (uncertain sample_flags = 2%Z
      /\ pool_uncertain_indices sample_seeded_state sample_permutation
                                sample_softmax sample_flags 5%nat
                                [[1; 2]; [3; 0]] [[0; 1]; [0; 1]]
         = Ok [0%nat; 1%nat]
      /\ [0%nat; 1%nat]
         = py_take (n_extra sample_flags)
             (fst (sample_permutation (sample_seeded_state (seed sample_flags))
                                      (length [[1; 2]; [3; 0]])))).
Proof.
  pose proof (randomness_from_seed_flag nat sample_seeded_state
                sample_permutation sample_softmax nat sample_PRNGKey
                sample_fold_in sample_normal bool sample_dloss
                (fun params _ => params) (pytree array)
                (fun st => st) (fun _ g _ => g) sample_flags)
    as (Hkeys & _ & _ & Hmain).
  assert (HF : dpsgd sample_flags = true) by reflexivity.
  assert (Hu : uncertain sample_flags = 2%Z) by reflexivity.
  split.
  - split; [exact HF |].
    exact (Hkeys sample_params [[true]; [false]] HF).
  - split; [exact Hu |]. split; [exact sample_random_selection |].
    exact (Hmain 5%nat _ _ _ Hu sample_random_selection).
Defined.

(** The random criterion is a function of the state of the global
    generator: on the same pool size and the same count, two states give
    two selections. *)
Lemma random_indices_reads_global_state :
  fst (random_indices sample_permutation 0%nat 3 2) = [0%nat; 1%nat]
  /\ fst (random_indices sample_permutation 1%nat 3 2) = [2%nat; 1%nat]
  /\ fst (random_indices sample_permutation 0%nat 3 2)
     <> fst (random_indices sample_permutation 1%nat 3 2).
Proof.
  split; [reflexivity |]. split; [reflexivity |]. discriminate.
Qed.

(** The scenario of C1 on the two sample gradients, entry by entry. *)
Example private_grad_sample_run :
  private_grad sample_dloss sample_normal sample_params [true; false]
               7%nat 1 0 2
  = Ok (Node [Node [Leaf (mkArray [2%nat]
                            [(1 / 3 + 3 / 10) / 2; (2 / 3 + 4 / 10) / 2]);
                    Leaf (mkArray [1%nat] [(2 / 3 + 0) / 2])];
              Node []]).
Proof.
  rewrite private_grad_reference.
  assert (D1 : clip_divisor sample_dloss 1 sample_params true = 3).
  { rewrite clip_divisor_large; rewrite ?sample_norm_true; lra. }
  assert (D2 : clip_divisor sample_dloss 1 sample_params false = 1).
  { rewrite clip_divisor_small; rewrite ?sample_norm_false; lra. }
  unfold dp_sgd_reference, tree_mapi, dp_sgd_entry, summed_entry, clipped_entry.
  cbn -[clip_divisor Rdiv Rplus Rmult IZR]. rewrite D1, D2.
  repeat first [lra | progress f_equal].
Qed.

(** * Further properties of the private gradient *)

Lemma map_mapi_from {A B C} (h : B -> C) (f : nat -> A -> B) xs : forall j,
  map h (mapi_from f j xs) = mapi_from (fun i a => h (f i a)) j xs.
Proof. induction xs as [| x xs IH]; intros j; simpl; [| rewrite IH]; reflexivity. Qed.

Lemma combine_mapi_from {A B C} (f : nat -> A -> B) (g : nat -> A -> C) xs :
  forall j, combine (mapi_from f j xs) (mapi_from g j xs)
            = mapi_from (fun i a => (f i a, g i a)) j xs.
Proof. induction xs as [| x xs IH]; intros j; simpl; [| rewrite IH]; reflexivity. Qed.

Lemma mapi_from_ext {A B} (f g : nat -> A -> B) xs : forall j,
  (forall i a, f i a = g i a) -> mapi_from f j xs = mapi_from g j xs.
Proof.
  induction xs as [| x xs IH]; intros j H; simpl.
  - reflexivity.
  - now rewrite H, (IH (S j) H).
Qed.



Lemma tree_mapi_from_const {A B} (f : A -> B) (t : pytree A) : forall j,
  tree_mapi_from (fun _ a => f a) j t = tree_map f t.
Proof.
  induction t as [a | cs IH] using pytree_ind'; intros j; simpl.
  - reflexivity.
  - f_equal. revert j. induction IH as [| c cs Hc _ IHcs]; intros j; simpl.
    + reflexivity.
    + now rewrite Hc, IHcs.
Qed.

Lemma rsum_perm xs ys : Permutation xs ys -> rsum xs = rsum ys.
Proof.
  unfold rsum. induction 1; simpl; lra.
Qed.

Lemma tree_structure_map {A B} (f : A -> B) (t : pytree A) :
  tree_structure (tree_map f t) = tree_structure t.
Proof.
  unfold tree_structure.
  induction t as [a | cs IH] using pytree_ind'; simpl.
  - reflexivity.
  - f_equal. induction IH as [| c cs Hc _ IHcs]; simpl.
    + reflexivity.
    + now rewrite Hc, IHcs.
Qed.

Section PrivateGradMore.

Variable example : Type.
Variable dloss : pytree array -> example -> nat -> nat -> R.
Variable key : Type.
Variable normal_at : key -> list nat -> nat -> R.

(** X1.  Whatever the gradient of an example, what [_clipped_grad]
    returns for a clip norm [C > 0] has a global norm of at most [C], and
    the containers of [params]. *)
Theorem clipped_grad_norm_bounded C params ex :
  0 < C ->
  exists clipped,
    _clipped_grad dloss C params ex = Ok clipped
    /\ global_norm clipped <= C
    /\ tree_structure clipped = tree_structure params.
Proof.
  intros HC. eexists. split; [apply _clipped_grad_scales |]. split.
  - destruct (Rle_or_lt (global_norm (grad_loss dloss params ex)) C)
      as [Hle | Hlt].
    + rewrite clip_divisor_small by assumption.
      rewrite global_norm_adiv by lra. lra.
    + rewrite clip_divisor_large by assumption.
      rewrite global_norm_adiv by (apply Rdiv_lt_0_compat; lra).
      apply Req_le. field. split; lra.
  - rewrite tree_structure_map. unfold grad_loss, tree_mapi.
    apply tree_structure_mapi_from.
Qed.


(** X3.  The order of the examples in the batch does not matter. *)
Theorem private_grad_batch_order params batch batch' rng C sigma B :
  Permutation batch batch' ->
  private_grad dloss normal_at params batch rng C sigma B
  = private_grad dloss normal_at params batch' rng C sigma B.
Proof.
  intros Hp. rewrite !private_grad_reference. f_equal.
  unfold dp_sgd_reference.
  apply tree_mapi_from_ext. intros i a _. f_equal.
  apply map_ext. intros k. unfold dp_sgd_entry, summed_entry.
  f_equal. f_equal. apply rsum_perm. now apply Permutation_map.
Qed.

(** X4.  On an empty batch the result is the scaled noise alone, divided
    by the batch size: it depends neither on the loss nor on the values
    of the parameters. *)
Theorem private_grad_empty_batch params rng C sigma B :
  private_grad dloss normal_at params [] rng C sigma B
  = Ok (tree_map
          (fun p => adiv (ascale (C * sigma)
                                 (random_normal normal_at rng (shape p)))
                         (IZR B))
          params).
Proof.
  rewrite private_grad_reference. f_equal.
  rewrite <- (tree_mapi_from_const _ params 0).
  unfold dp_sgd_reference, tree_mapi.
  apply tree_mapi_from_ext. intros i a _.
  unfold adiv, ascale, random_normal. simpl. f_equal.
  rewrite !map_map. apply map_ext. intros k.
  unfold dp_sgd_entry, summed_entry, rsum. simpl. f_equal. lra.
Qed.

(** X5.  One more example in the batch shifts every array of the result
    by the clipped gradient of that example divided by the batch size. *)
Theorem private_grad_one_more_example params ex batch rng C sigma B :
  exists clipped g0 g1,
    _clipped_grad dloss C params ex = Ok clipped
    /\ private_grad dloss normal_at params batch rng C sigma B = Ok g0
    /\ private_grad dloss normal_at params (ex :: batch) rng C sigma B = Ok g1
    /\ tree_structure g1 = tree_structure g0
    /\ tree_leaves g1
       = map (fun cg => aadd (adiv (fst cg) (IZR B)) (snd cg))
             (combine (tree_leaves clipped) (tree_leaves g0)).
Proof.
  exists (clipped_tree dloss C params ex),
         (dp_sgd_reference dloss normal_at params batch rng C sigma B),
         (dp_sgd_reference dloss normal_at params (ex :: batch) rng C sigma B).
  split; [apply _clipped_grad_tree |].
  split; [apply private_grad_reference |].
  split; [apply private_grad_reference |].
  unfold dp_sgd_reference, clipped_tree, tree_mapi.
  rewrite !tree_structure_mapi_from, !tree_leaves_mapi_from.
  split; [reflexivity |].
  rewrite combine_mapi_from, map_mapi_from.
  apply mapi_from_ext. intros i a.
  unfold aadd, adiv. simpl. f_equal.
  rewrite map_map, vadd_map. apply map_ext. intros k.
  unfold dp_sgd_entry, summed_entry, rsum. simpl.
  unfold Rdiv. ring.
Qed.

End PrivateGradMore.

(** X6.  With a noise multiplier of zero the result is the same for
    every key and every sampler. *)
Theorem private_grad_zero_noise {example key key' : Type}
        (dloss : pytree array -> example -> nat -> nat -> R)
        (normal_at : key -> list nat -> nat -> R)
        (normal_at' : key' -> list nat -> nat -> R)
        params batch rng rng' C B :
  private_grad dloss normal_at params batch rng C 0 B
  = private_grad dloss normal_at' params batch rng' C 0 B.
Proof.
  rewrite !private_grad_reference. f_equal.
  unfold dp_sgd_reference.
  apply tree_mapi_from_ext. intros i a _. f_equal.
  apply map_ext. intros k. unfold dp_sgd_entry. f_equal. ring.
Qed.

(** * Further properties of the fine-tuning loop *)

Lemma fold_result_ext {S X} (f g : S -> X -> result S) xs : forall st,
  (forall st x, f st x = g st x) -> fold_result f xs st = fold_result g xs st.
Proof.
  induction xs as [| x xs IH]; intros st H; simpl.
  - reflexivity.
  - rewrite H. destruct (g st x); simpl; [now apply IH | reflexivity].
Qed.

Section LoopMore.

Variable key : Type.
Variable PRNGKey : Z -> key.
Variable fold_in : key -> nat -> key.
Variable normal_at : key -> list nat -> nat -> R.
Variable example : Type.
Variable dloss : pytree array -> example -> nat -> nat -> R.
Variable batch_grad : pytree array -> list example -> pytree array.
Variable opt_state : Type.
Variable get_params : opt_state -> pytree array.
Variable opt_update : nat -> pytree array -> opt_state -> opt_state.


(** X7.  In private mode every epoch starts its counter at 0 and its key
    at [PRNGKey seed]: batch [i] of every epoch is given the key
    [fold_in (PRNGKey seed) i], whatever the epoch.  With no epoch to run
    the state is returned as it is. *)
Theorem finetune_repeats_keys F st batches_of :
  dpsgd F = true ->
  finetune PRNGKey fold_in normal_at dloss batch_grad get_params opt_update
           F st batches_of
  = fold_result
      (fun st epoch =>
         fold_result
           (keyed_private_step PRNGKey fold_in normal_at dloss get_params
                               opt_update F)
           (combine (seq 0 (length (batches_of epoch))) (batches_of epoch))
           st)
      (seq 1 (Z.to_nat (epochs F))) st
  /\ ((epochs F <= 0)%Z ->
      finetune PRNGKey fold_in normal_at dloss batch_grad get_params
               opt_update F st batches_of = Ok st).
Proof.
  intros HF. split.
  - unfold finetune. apply fold_result_ext. intros st0 epoch.
    unfold run_epoch. now apply run_batches_keys.
  - intros He. unfold finetune.
    replace (Z.to_nat (epochs F)) with 0%nat by lia. reflexivity.
Qed.

End LoopMore.



(** * Further properties of the pool selection *)

Lemma firstn_nil_iff {A} (m : nat) (l : list A) :
  firstn m l = [] <-> m = 0%nat \/ l = [].
Proof.
  destruct m, l; simpl; split; intros H; auto; try discriminate;
    destruct H; discriminate.
Qed.

Lemma py_take_firstn {A} (k : Z) (l : list A) :
  exists m, py_take k l = firstn m l.
Proof. unfold py_take. destruct (k <? 0)%Z; eauto. Qed.

Lemma py_take_NoDup {A} (k : Z) (l : list A) : NoDup l -> NoDup (py_take k l).
Proof.
  intros H. destruct (py_take_firstn k l) as [m ->].
  rewrite <- (firstn_skipn m l) in H. now apply NoDup_app_remove_r in H.
Qed.

Lemma py_take_incl {A} (k : Z) (l : list A) a : In a (py_take k l) -> In a l.
Proof.
  destruct (py_take_firstn k l) as [m ->]. apply firstn_incl.
Qed.

Lemma py_take_length_le {A} (k : Z) (l : list A) :
  (length (py_take k l) <= length l)%nat.
Proof.
  destruct (py_take_firstn k l) as [m ->]. rewrite length_firstn. lia.
Qed.

Lemma py_take_nil_iff {A} (k : Z) (l : list A) :
  py_take k l = []
  <-> l = [] \/ k = 0%Z \/ (k <= - Z.of_nat (length l))%Z.
Proof.
  unfold py_take. destruct (Z.ltb_spec k 0); rewrite firstn_nil_iff.
  - split.
    + intros [Hm | Hl]; [right; right; lia | now left].
    + intros [Hl | [Hk | Hk]]; [now right | lia | left; lia].
  - split.
    + intros [Hm | Hl]; [right; left; lia | now left].
    + intros [Hl | [Hk | Hk]]; [now right | left; lia |].
      destruct l; [now right | simpl in Hk; lia].
Qed.

Lemma log_min_max_ok_iff scores u :
  log_min_max scores = Ok u <-> scores <> [].
Proof.
  destruct scores; simpl; split; intros H; try congruence.
  now destruct u.
Qed.

Lemma argsort_nil_iff xs : argsort xs = [] <-> xs = [].
Proof.
  rewrite <- !length_zero_iff_nil, argsort_length. reflexivity.
Qed.

Lemma entropy_indices_nil_iff (pool_probs : list (list R)) (k : Z) :
  entropy_indices pool_probs k = []
  <-> pool_probs = [] \/ k = 0%Z \/ (k <= - Z.of_nat (length pool_probs))%Z.
Proof.
  unfold entropy_indices. rewrite py_take_nil_iff.
  rewrite length_rev, argsort_length, length_map.
  assert (Hrev : rev (argsort (map entropy pool_probs)) = []
                 <-> pool_probs = []).
  { rewrite <- !length_zero_iff_nil, length_rev, argsort_length, length_map.
    reflexivity. }
  rewrite Hrev. reflexivity.
Qed.

Lemma entropy_branch_nonempty (pool_probs : list (list R)) (k : Z) :
  entropy_indices pool_probs k <> [] ->
  entropy_branch pool_probs k = Ok (entropy_indices pool_probs k).
Proof.
  intros Hne. unfold entropy_branch.
  assert (Hpool : pool_probs <> []).
  { intros E. apply Hne, entropy_indices_nil_iff. now left. }
  rewrite log_min_max_nonempty
    by (rewrite length_map; destruct pool_probs; simpl; [congruence | lia]).
  rewrite log_min_max_nonempty; [reflexivity |].
  rewrite take_indices_length.
  destruct (entropy_indices pool_probs k); simpl; [congruence | lia].
Qed.

(** X9.  The entropy branch returns its selection unless the selection
    is empty, and then it raises ValueError while writing the log; the
    selection is empty exactly for an empty pool, for [n_extra = 0] and
    for [n_extra <= - pool size]. *)
Theorem entropy_branch_edges (pool_probs : list (list R)) (k : Z) :
  (entropy_indices pool_probs k <> [] ->
   entropy_branch pool_probs k = Ok (entropy_indices pool_probs k))
  /\ (entropy_indices pool_probs k = [] ->
      entropy_branch pool_probs k = Raise ValueError)
  /\ (entropy_indices pool_probs k = []
      <-> pool_probs = [] \/ k = 0%Z
          \/ (k <= - Z.of_nat (length pool_probs))%Z).
Proof.
  split; [apply entropy_branch_nonempty |].
  split; [| apply entropy_indices_nil_iff].
  intros He. unfold entropy_branch. rewrite He.
  destruct (map entropy pool_probs); reflexivity.
Qed.

Lemma entropy_branch_ok pool_probs k picked :
  entropy_branch pool_probs k = Ok picked ->
  picked = entropy_indices pool_probs k /\ picked <> [].
Proof.
  unfold entropy_branch.
  destruct (log_min_max (map entropy pool_probs)); [| discriminate]. simpl.
  destruct (log_min_max _) eqn:E; [| discriminate]. simpl.
  intros H. injection H as <-. split; [reflexivity |].
  apply log_min_max_ok_iff in E. intros Hnil. apply E.
  now rewrite Hnil.
Qed.

Lemma difference_branch_ok pool_probs k picked :
  difference_branch pool_probs k = Ok picked ->
  exists diffs,
    mapM row_diff pool_probs = Ok diffs
    /\ picked = py_take k (argsort diffs) /\ picked <> [].
Proof.
  unfold difference_branch.
  destruct (mapM row_diff pool_probs) as [diffs |]; [| discriminate]. simpl.
  destruct (py_min diffs) as [m |]; [| discriminate]. simpl.
  destruct (Rlt_dec 0 m); [| discriminate].
  destruct (log_min_max diffs); [| discriminate]. simpl.
  destruct (log_min_max _) eqn:E; [| discriminate]. simpl.
  intros H. injection H as <-. exists diffs.
  split; [reflexivity |]. split; [reflexivity |].
  apply log_min_max_ok_iff in E. intros Hnil. apply E.
  now rewrite Hnil.
Qed.

Section SelectionMore.

Variable npr_state : Type.
Variable seeded_state : Z -> npr_state.
Variable npr_permutation : npr_state -> nat -> list nat * npr_state.
Variable softmax : list R -> list R.

(** X10.  Whenever the selection of [main] returns, the criterion flag
    is 0, 1 or 2, the seed fits 32 bits, the pool diagnostic has passed,
    and exactly [n_extra] indices are returned; under the entropy and
    difference criteria these are distinct positions of the pool, so that
    [1 <= n_extra <= pool size]. *)
Theorem pool_uncertain_indices_returns F ambient pool_logits pool_labels picked :
  pool_uncertain_indices seeded_state npr_permutation softmax F ambient
                         pool_logits pool_labels = Ok picked ->
  (uncertain F = 0 \/ uncertain F = 1 \/ uncertain F = 2)%Z
  /\ (0 <= seed F < 2 ^ 32)%Z
  /\ (exists d, pool_diagnostic pool_logits pool_labels = Ok d)
  /\ Z.of_nat (length picked) = n_extra F
  /\ (uncertain F <> 2%Z ->
      NoDup picked
      /\ (forall i, In i picked -> (i < length pool_logits)%nat)
      /\ (1 <= n_extra F <= Z.of_nat (length pool_logits))%Z).
Proof.
  unfold pool_uncertain_indices, npr_seed.
  destruct ((0 <=? seed F) && (seed F <? 2 ^ 32))%Z eqn:Hs; [| discriminate].
  simpl bind at 1.
  destruct (pool_diagnostic pool_logits pool_labels) as [d |];
    [| discriminate].
  simpl bind at 1.
  assert (Hseed : (0 <= seed F < 2 ^ 32)%Z).
  { apply andb_true_iff in Hs. destruct Hs as [H1 H2].
    apply Z.leb_le in H1. apply Z.ltb_lt in H2. lia. }
  assert (Hfin : forall got : list nat,
             (if (n_extra F =? Z.of_nat (length got))%Z
              then Ok got else Raise AssertionError) = Ok picked ->
             got = picked /\ Z.of_nat (length picked) = n_extra F).
  { intros got H. destruct (Z.eqb_spec (n_extra F) (Z.of_nat (length got)));
      [| discriminate].
    injection H as <-. split; [reflexivity | lia]. }
  assert (Hsel : forall (l : list nat) (n : nat) k,
             NoDup l -> (forall i, In i l -> (i < n)%nat) -> length l = n ->
             py_take k l <> [] ->
             Z.of_nat (length (py_take k l)) = n_extra F ->
             NoDup (py_take k l)
             /\ (forall i, In i (py_take k l) -> (i < n)%nat)
             /\ (1 <= n_extra F <= Z.of_nat n)%Z).
  { intros l n k Hnd Hin Hl Hne Hlen.
    split; [now apply py_take_NoDup |].
    split; [intros i Hi; now apply Hin, (py_take_incl k) |].
    pose proof (py_take_length_le k l).
    destruct (py_take k l); [congruence | simpl in *; lia]. }
  destruct (Z.eqb_spec (uncertain F) 0) as [H0 | H0].
  - destruct (entropy_branch (map softmax pool_logits) (n_extra F))
      as [got |] eqn:E; [| discriminate].
    simpl. intros H. destruct (Hfin _ H) as [-> Hlen].
    apply entropy_branch_ok in E. destruct E as [E Hne].
    split; [now left |]. split; [exact Hseed |]. split; [eauto |].
    split; [exact Hlen |]. intros _.
    unfold entropy_indices in E. subst picked.
    apply Hsel.
    + apply NoDup_rev, argsort_NoDup.
    + intros i Hi. apply in_rev, argsort_In in Hi.
      now rewrite !length_map in Hi.
    + now rewrite length_rev, argsort_length, !length_map.
    + exact Hne.
    + exact Hlen.
  - destruct (Z.eqb_spec (uncertain F) 1) as [H1 | H1].
    + destruct (difference_branch (map softmax pool_logits) (n_extra F))
        as [got |] eqn:E; [| discriminate].
      simpl. intros H. destruct (Hfin _ H) as [-> Hlen].
      apply difference_branch_ok in E.
      destruct E as (diffs & Hd & E & Hne).
      pose proof (mapM_length _ _ _ Hd) as Ld. rewrite length_map in Ld.
      split; [right; now left |]. split; [exact Hseed |]. split; [eauto |].
      split; [exact Hlen |]. intros _.
      subst picked. apply Hsel.
      * apply argsort_NoDup.
      * intros i Hi. apply argsort_In in Hi. lia.
      * now rewrite argsort_length.
      * exact Hne.
      * exact Hlen.
    + destruct (Z.eqb_spec (uncertain F) 2) as [H2 | H2]; [| discriminate].
      simpl. intros H. destruct (Hfin _ H) as [_ Hlen].
      split; [right; now right |]. split; [exact Hseed |]. split; [eauto |].
      split; [exact Hlen |]. intros Hc. contradiction.
Qed.

(** X11.  Under the entropy criterion, asking for more points than the
    pool holds is not cut down to the pool: the final assertion of the
    selection raises AssertionError. *)
Theorem pool_uncertain_indices_too_many F ambient pool_logits pool_labels d :
  uncertain F = 0%Z ->
  (0 <= seed F < 2 ^ 32)%Z ->
  pool_diagnostic pool_logits pool_labels = Ok d ->
  pool_logits <> [] ->
  (Z.of_nat (length pool_logits) < n_extra F)%Z ->
  pool_uncertain_indices seeded_state npr_permutation softmax F ambient
                         pool_logits pool_labels = Raise AssertionError.
Proof.
  intros Hu Hs Hd Hne Hk.
  unfold pool_uncertain_indices, npr_seed.
  replace ((0 <=? seed F) && (seed F <? 2 ^ 32))%Z with true
    by (symmetry; apply andb_true_iff; split;
        [apply Z.leb_le | apply Z.ltb_lt]; lia).
  simpl bind at 1. rewrite Hd. simpl bind at 1. rewrite Hu. simpl.
  pose proof (entropy_indices_nil_iff (map softmax pool_logits) (n_extra F))
    as Hnil.
  rewrite entropy_branch_nonempty.
  - simpl. unfold entropy_indices.
    rewrite py_take_nonneg by lia.
    rewrite firstn_all2
      by (rewrite length_rev, argsort_length, !length_map; lia).
    rewrite length_rev, argsort_length, !length_map.
    destruct (Z.eqb_spec (n_extra F) (Z.of_nat (length pool_logits)));
      [lia | reflexivity].
  - intros E. apply Hnil in E. rewrite length_map in E.
    destruct E as [E | [E | E]]; [| lia | lia].
    apply map_eq_nil in E. contradiction.
Qed.

End SelectionMore.

Lemma mapM_In {A B} (f : A -> result B) xs : forall ys,
  mapM f xs = Ok ys ->
  forall y, In y ys <-> exists x, In x xs /\ f x = Ok y.
Proof.
  induction xs as [| x xs IH]; simpl; intros ys H y.
  - injection H as <-. split; [intros [] | intros (x & [] & _)].
  - destruct (f x) as [b |] eqn:Fx; [| discriminate]. simpl in H.
    destruct (mapM f xs) as [bs |]; [| discriminate]. simpl in H.
    injection H as <-. simpl. rewrite (IH bs eq_refl y). split.
    + intros [<- | (x' & Hin & Hx')]; [exists x; auto | exists x'; auto].
    + intros (x' & [<- | Hin] & Hx').
      * left. congruence.
      * right. eauto.
Qed.

Lemma row_diff_total row :
  (2 <= length row)%nat -> exists d, row_diff row = Ok d.
Proof.
  intros H. unfold row_diff.
  assert (L : length (rev (sort_row row)) = length row).
  { rewrite length_rev. apply Permutation_length, sort_row_perm. }
  destruct (rev (sort_row row)) as [| a [| b r]]; simpl in L; try lia.
  now eexists.
Qed.

(** The difference of a row is zero exactly when its largest value occurs
    twice. *)
Lemma row_diff_zero_iff row d :
  row_diff row = Ok d ->
  (d <= 0 <->
   exists top others,
     Permutation row (top :: top :: others)
     /\ (forall x, In x others -> x <= top)).
Proof.
  intros H.
  destruct (row_diff_top_two _ _ H) as (t1 & t2 & o & Hp & H21 & Ho & ->).
  split.
  - intros Hle. assert (t1 = t2) by lra. subst t2.
    exists t1, o. split; [exact Hp | exact Ho].
  - intros (top & others & Hp' & Hot).
    assert (Hmax : forall x, In x row -> x <= top).
    { intros x Hx. apply (Permutation_in _ Hp') in Hx.
      destruct Hx as [<- | [<- | Hx]]; [lra | lra | now apply Hot]. }
    assert (Hmax1 : forall x, In x row -> x <= t1).
    { intros x Hx. apply (Permutation_in _ Hp) in Hx.
      destruct Hx as [<- | [<- | Hx]]; [lra | lra |].
      specialize (Ho x Hx). lra. }
    assert (Ht1 : t1 = top).
    { apply Rle_antisym.
      - apply Hmax. apply (Permutation_in _ (Permutation_sym Hp)). now left.
      - apply Hmax1. apply (Permutation_in _ (Permutation_sym Hp')). now left. }
    subst t1.
    assert (Hp2 : Permutation (top :: others) (t2 :: o)).
    { apply Permutation_cons_inv with top.
      eapply perm_trans; [apply Permutation_sym, Hp' | exact Hp]. }
    assert (Hin : In top (t2 :: o)).
    { apply (Permutation_in _ Hp2). now left. }
    destruct Hin as [<- | Hin]; [lra |].
    specialize (Ho top Hin). lra.
Qed.

(** X12.  On a pool whose rows have at least two classes, the difference
    branch raises AssertionError exactly when in some row the largest
    probability occurs twice. *)
Theorem difference_branch_tie (pool_probs : list (list R)) (k : Z) :
  (forall row, In row pool_probs -> (2 <= length row)%nat) ->
  (difference_branch pool_probs k = Raise AssertionError
   <-> exists row top others,
        In row pool_probs
        /\ Permutation row (top :: top :: others)
        /\ (forall x, In x others -> x <= top)).
Proof.
  intros Hrows.
  destruct (mapM_total row_diff pool_probs) as [diffs Hd].
  { intros row Hin. now apply row_diff_total, Hrows. }
  pose proof (mapM_In _ _ _ Hd) as HIn.
  split.
  - intros Hraise.
    assert (Hex : exists d, In d diffs /\ d <= 0).
    { unfold difference_branch in Hraise. rewrite Hd in Hraise.
      simpl in Hraise.
      destruct (py_min diffs) as [m |] eqn:Hm.
      - simpl in Hraise. destruct (py_min_spec _ _ Hm) as [Hin _].
        destruct (Rlt_dec 0 m) as [Hpos | Hnpos].
        + exfalso. unfold log_min_max in Hraise.
          destruct diffs as [| d0 ds]; [discriminate Hraise |].
          unfold bind at 1 in Hraise.
          destruct (take_indices _ _); simpl in Hraise; discriminate Hraise.
        + exists m. split; [exact Hin | lra].
      - simpl in Hraise.
        destruct diffs; simpl in Hm;
          [injection Hm as <-; discriminate Hraise | discriminate Hm]. }
    destruct Hex as (d & Hin & Hle).
    apply HIn in Hin. destruct Hin as (row & Hrow & Hrd).
    apply (row_diff_zero_iff _ _ Hrd) in Hle.
    destruct Hle as (top & others & Hp & Ho).
    exists row, top, others. auto.
  - intros (row & top & others & Hrow & Hp & Ho).
    destruct (row_diff_total row (Hrows row Hrow)) as [d Hrd].
    apply (difference_branch_raises _ _ _ Hd).
    exists d. split.
    + apply HIn. eauto.
    + apply (row_diff_zero_iff _ _ Hrd). eauto.
Qed.

(** * Batches *)

(** X13.  For a positive batch size and [num_extra >= 0] examples,
    [main] counts the least number of batches that hold them all; a batch
    size of zero raises ZeroDivisionError. *)
Theorem num_batches_ceiling (num_extra B : Z) :
  num_batches num_extra 0 = Raise ZeroDivisionError
  /\ ((0 < B)%Z -> (0 <= num_extra)%Z ->
      exists nb,
        num_batches num_extra B = Ok nb
        /\ (B * (nb - 1) < num_extra <= B * nb)%Z
        /\ (0 <= nb)%Z).
Proof.
  split; [reflexivity |].
  intros HB Hn. unfold num_batches, py_divmod.
  destruct (Z.eqb_spec B 0) as [-> | _]; [lia |]. simpl.
  eexists. split; [reflexivity |].
  pose proof (Z.div_mod num_extra B ltac:(lia)) as Hdm.
  pose proof (Z.mod_pos_bound num_extra B HB) as Hm.
  pose proof (Z.div_pos num_extra B Hn HB) as Hq.
  destruct (Z.eqb_spec (num_extra mod B) 0) as [H0 | H0]; nia.
Qed.

Lemma chunks_concat {A} (B : nat) : forall (m : nat) (l : list A),
  (0 < B)%nat -> (length l <= m * B)%nat ->
  concat (map (fun i => firstn B (skipn (i * B) l)) (seq 0 m)) = l.
Proof.
  induction m as [| m IH]; intros l HB Hl.
  - destruct l; [reflexivity | simpl in Hl; lia].
  - change (seq 0 (S m)) with (0%nat :: seq 1 m).
    rewrite <- seq_shift. cbn [map concat]. rewrite map_map.
    change (skipn (0 * B) l) with l.
    transitivity (firstn B l ++ skipn B l); [| apply firstn_skipn].
    f_equal.
    transitivity
      (concat (map (fun i => firstn B (skipn (i * B) (skipn B l))) (seq 0 m))).
    + f_equal. apply map_ext. intros i.
      rewrite skipn_skipn. do 2 f_equal. lia.
    + apply IH; [exact HB |].
      rewrite length_skipn. simpl in Hl. lia.
Qed.

Lemma additive_nil {A B} (g : list A -> list B) :
  (forall xs ys, g (xs ++ ys) = g xs ++ g ys) -> g [] = [].
Proof.
  intros H. specialize (H [] []). simpl in H.
  apply (f_equal (@length B)) in H. rewrite length_app in H.
  apply length_zero_iff_nil. lia.
Qed.

Lemma additive_concat {A B} (g : list A -> list B) parts :
  (forall xs ys, g (xs ++ ys) = g xs ++ g ys) ->
  concat (map g parts) = g (concat parts).
Proof.
  intros H. induction parts as [| p parts IH]; simpl.
  - symmetry. now apply additive_nil.
  - now rewrite H, IH.
Qed.

Lemma np_concatenate_nonempty {A} (parts : list (list A)) :
  (0 < length parts)%nat -> np_concatenate parts = Ok (concat parts).
Proof. destruct parts; simpl; [lia | reflexivity]. Qed.

Section ModelFacts.

Variable image : Type.
Variable apply_fn_0 : list (pytree array) -> list image -> list (list R).
Variable apply_fn_1 : list (pytree array) -> list (list R) -> list (list R).
Variable logsoftmax : list R -> list R.

(** X14.  [predict] gives all layers but the last to the embedding
    network and the last layer to the head: the two parts put end to end
    are [params], and the head part holds one layer unless [params] is
    empty. *)
Theorem predict_splits_params params inputs :
  exists params_0 params_1,
    predict apply_fn_0 apply_fn_1 params inputs
    = apply_fn_1 params_1 (apply_fn_0 params_0 inputs)
    /\ params_0 ++ params_1 = params
    /\ length params_1 = Nat.min 1 (length params).
Proof.
  exists (py_take (-1) params), (py_drop (-1) params).
  split; [reflexivity |].
  change (py_take (-1) params) with (firstn (length params - 1) params).
  change (py_drop (-1) params) with (skipn (length params - 1) params).
  split; [apply firstn_skipn |].
  rewrite length_skipn. lia.
Qed.

(** X15.  With a positive batch size and a pool that is not empty, the
    logits computed batch by batch are those of [predict] on the whole
    pool, provided the embedding network treats the examples of a batch
    one by one.  A batch size of zero and an empty pool raise
    ValueError. *)
Theorem pool_logits_batched F params pool_images :
  ((0 < batch_size F)%Z -> pool_images <> [] ->
   (forall ps xs ys,
       apply_fn_0 ps (xs ++ ys) = apply_fn_0 ps xs ++ apply_fn_0 ps ys) ->
   pool_logits_of apply_fn_0 apply_fn_1 F params pool_images
   = Ok (predict apply_fn_0 apply_fn_1 params pool_images))
  /\ (batch_size F = 0%Z ->
      pool_logits_of apply_fn_0 apply_fn_1 F params pool_images
      = Raise ValueError)
  /\ ((0 < batch_size F)%Z -> pool_images = [] ->
      pool_logits_of apply_fn_0 apply_fn_1 F params pool_images
      = Raise ValueError).
Proof.
  split; [| split].
  - intros HB Hne Hadd. unfold pool_logits_of, py_range0.
    destruct (Z.eqb_spec (batch_size F) 0) as [E | _]; [lia |].
    destruct (Z.ltb_spec (batch_size F) 0) as [E | _]; [lia |].
    simpl bind at 1. rewrite map_map.
    set (B := batch_size F) in *.
    set (n := Z.of_nat (length pool_images)).
    set (m := Z.to_nat ((n + B - 1) / B)).
    assert (Hn : (0 < n)%Z).
    { unfold n. destruct pool_images; [congruence | simpl; lia]. }
    assert (Hm : (n <= Z.of_nat m * B)%Z).
    { unfold m. rewrite Z2Nat.id by (apply Z.div_pos; lia).
      pose proof (Z.div_mod (n + B - 1) B ltac:(lia)).
      pose proof (Z.mod_pos_bound (n + B - 1) B HB). nia. }
    assert (Hm1 : (0 < m)%nat) by nia.
    assert (Hchunks :
              map (fun i : nat =>
                     apply_fn_0 (py_take (-1) params)
                       (py_slice pool_images (Z.of_nat i * B)
                                 (Z.of_nat i * B + B)))
                  (seq 0 m)
              = map (apply_fn_0 (py_take (-1) params))
                    (map (fun i => firstn (Z.to_nat B)
                                     (skipn (i * Z.to_nat B) pool_images))
                         (seq 0 m))).
    { rewrite map_map. apply map_ext. intros i. f_equal.
      unfold py_slice. f_equal; [| f_equal]; nia. }
    rewrite Hchunks.
    rewrite np_concatenate_nonempty
      by (rewrite !length_map, length_seq; exact Hm1).
    simpl bind. unfold predict. do 2 f_equal.
    rewrite additive_concat by (intros; apply Hadd). f_equal.
    apply (chunks_concat (Z.to_nat B) m pool_images); nia.
  - intros HB. unfold pool_logits_of, py_range0. rewrite HB. reflexivity.
  - intros HB ->. unfold pool_logits_of, py_range0.
    destruct (Z.eqb_spec (batch_size F) 0); [lia |].
    destruct (Z.ltb_spec (batch_size F) 0); [lia |].
    simpl length. simpl Z.of_nat.
    replace ((0 + batch_size F - 1) / batch_size F)%Z with 0%Z.
    + reflexivity.
    + symmetry. apply Z.div_small. lia.
Qed.

End ModelFacts.

(** * Accuracy and loss *)

Lemma rsum_hits mask : forall s,
  rsum (map (fun hit : bool => if hit then 1 else 0) mask)
  = INR (length (where_from s mask)).
Proof.
  unfold rsum. induction mask as [| b mask IH]; intros s; simpl.
  - reflexivity.
  - rewrite (IH (S s)). destruct b; [| lra].
    change (length (s :: where_from (S s) mask))
      with (S (length (where_from (S s) mask))).
    rewrite S_INR. lra.
Qed.

Lemma where_from_length_le mask : forall s,
  (length (where_from s mask) <= length mask)%nat.
Proof.
  induction mask as [| b mask IH]; intros s; simpl; [lia |].
  specialize (IH (S s)). destruct b; simpl; lia.
Qed.

Lemma where_from_all mask : forall s,
  length (where_from s mask) = length mask
  <-> (forall b, In b mask -> b = true).
Proof.
  induction mask as [| b mask IH]; intros s; simpl.
  - split; [intros _ b [] | reflexivity].
  - pose proof (where_from_length_le mask (S s)) as Hle.
    destruct b; simpl.
    + rewrite Nat.succ_inj_wd, (IH (S s)). split.
      * intros H b [<- | Hb]; auto.
      * intros H b Hb. apply H. now right.
    + split; [lia |]. intros H. specialize (H false (or_introl eq_refl)).
      discriminate.
Qed.

Lemma combine_eqb_sym (xs ys : list nat) :
  map (fun xy => (fst xy =? snd xy)%nat) (combine xs ys)
  = map (fun xy => (fst xy =? snd xy)%nat) (combine ys xs).
Proof.
  revert ys. induction xs as [| x xs IH]; intros [| y ys]; simpl;
    try reflexivity.
  now rewrite Nat.eqb_sym, IH.
Qed.

Lemma combine_eqb_all (xs ys : list nat) :
  length xs = length ys ->
  ((forall b, In b (map (fun xy => (fst xy =? snd xy)%nat) (combine xs ys)) ->
              b = true)
   <-> xs = ys).
Proof.
  revert ys. induction xs as [| x xs IH]; intros [| y ys] Hl;
    simpl in *; try discriminate.
  - split; [reflexivity | intros _ b []].
  - injection Hl as Hl. split.
    + intros H. f_equal.
      * apply Nat.eqb_eq. apply H. now left.
      * apply IH; [exact Hl |]. intros b Hb. apply H. now right.
    + intros E. injection E as -> ->. intros b [<- | Hb].
      * apply Nat.eqb_refl.
      * revert b Hb. now apply IH.
Qed.

Section AccuracyFacts.

Variable image : Type.
Variable apply_fn_0 : list (pytree array) -> list image -> list (list R).
Variable apply_fn_1 : list (pytree array) -> list (list R) -> list (list R).

(** X16.  On a batch that is not empty, with one row of logits per
    target row and no empty row, [accuracy] is the share of the rows
    whose predicted class is the target class: a number between 0 and 1,
    equal to 1 exactly when all classes agree, and equal to the count of
    correct indices of the pool diagnostic over the number of rows.
    With [return_predicted_class] it returns the classes beside it.  On
    an empty batch the accuracy is nan. *)
Theorem accuracy_is_share_of_hits params inputs targets :
  (length (predict apply_fn_0 apply_fn_1 params inputs) = length targets ->
   targets <> [] ->
   (forall row, In row targets -> row <> []) ->
   (forall row, In row (predict apply_fn_0 apply_fn_1 params inputs) -> row <> []) ->
   exists acc predicted_class target_class,
     mapM argmax (predict apply_fn_0 apply_fn_1 params inputs) = Ok predicted_class
     /\ mapM argmax targets = Ok target_class
     /\ accuracy apply_fn_0 apply_fn_1 params (inputs, targets) true
        = Ok (AccAndClasses (Some acc) predicted_class)
     /\ accuracy apply_fn_0 apply_fn_1 params (inputs, targets) false = Ok (Acc (Some acc))
     /\ 0 <= acc <= 1
     /\ (acc = 1 <-> predicted_class = target_class)
     /\ (forall correct incorrect,
            pool_diagnostic (predict apply_fn_0 apply_fn_1 params inputs) targets
            = Ok (correct, incorrect) ->
            acc = INR (length correct) / INR (length targets)))
  /\ (predict apply_fn_0 apply_fn_1 params inputs = [] ->
      accuracy apply_fn_0 apply_fn_1 params (inputs, []) false = Ok (Acc None)).
Proof.
  split.
  - intros Hlen Hne Htar Hlog.
    destruct (mapM_total argmax targets) as [t Ht];
      [intros; now apply argmax_total, Htar |].
    destruct (mapM_total argmax (predict apply_fn_0 apply_fn_1 params inputs)) as [p Hp];
      [intros; now apply argmax_total, Hlog |].
    pose proof (mapM_length _ _ _ Ht) as Lt.
    pose proof (mapM_length _ _ _ Hp) as Lp.
    assert (Ltp : length p = length t) by congruence.
    set (hits := map (fun xy => (fst xy =? snd xy)%nat) (combine p t)).
    assert (Lh : length hits = length targets).
    { unfold hits. rewrite length_map, length_combine. lia. }
    assert (HN : 0 < INR (length targets)).
    { apply lt_0_INR. destruct targets; [congruence | simpl; lia]. }
    assert (Hmean : np_mean (map (fun hit : bool => if hit then 1 else 0) hits)
                    = Some (INR (length (where_ hits)) / INR (length targets))).
    { unfold np_mean.
      destruct (map (fun hit : bool => if hit then 1 else 0) hits) eqn:E.
      - apply (f_equal (@length R)) in E. rewrite length_map, Lh in E.
        simpl in E. rewrite E in HN. simpl in HN. lra.
      - rewrite <- E, length_map, Lh. unfold where_.
        now rewrite (rsum_hits hits 0). }
    assert (Hrun : forall flag,
               accuracy apply_fn_0 apply_fn_1 params (inputs, targets) flag
               = if flag
                 then Ok (AccAndClasses
                            (Some (INR (length (where_ hits))
                                   / INR (length targets))) p)
                 else Ok (Acc (Some (INR (length (where_ hits))
                                     / INR (length targets))))).
    { intros flag. unfold accuracy.
      rewrite Ht, Hp. simpl.
      rewrite compare_vectors_same_length by exact Ltp. simpl.
      fold hits. rewrite Hmean. reflexivity. }
    pose proof (where_from_length_le hits 0) as Hle. fold (where_ hits) in Hle.
    exists (INR (length (where_ hits)) / INR (length targets)), p, t.
    split; [exact Hp |]. split; [exact Ht |].
    split; [exact (Hrun true) |]. split; [exact (Hrun false) |].
    split; [| split].
    + split.
      * apply Rmult_le_pos; [apply pos_INR | left; now apply Rinv_0_lt_compat].
      * apply Rmult_le_reg_r with (INR (length targets)); [exact HN |].
        unfold Rdiv. rewrite Rmult_assoc, Rinv_l by lra.
        rewrite Rmult_1_r, Rmult_1_l. apply le_INR. lia.
    + rewrite <- (combine_eqb_all p t Ltp).
      fold hits. rewrite <- (where_from_all hits 0). fold (where_ hits).
      rewrite Lh. split.
      * intros H. apply INR_eq.
        apply Rmult_eq_reg_r with (/ INR (length targets));
          [| apply Rinv_neq_0_compat; lra].
        fold (Rdiv (INR (length (where_ hits))) (INR (length targets))).
        rewrite H. field. lra.
      * intros ->. field. lra.
    + intros correct incorrect Hd.
      unfold pool_diagnostic in Hd. rewrite Ht, Hp in Hd. simpl in Hd.
      rewrite !compare_vectors_same_length in Hd by (symmetry; exact Ltp).
      simpl in Hd.
      destruct (_ =? _)%nat in Hd; [| discriminate].
      injection Hd as <- _.
      rewrite combine_eqb_sym. reflexivity.
  - intros Hnil. unfold accuracy.
    rewrite Hnil. reflexivity.
Qed.

End AccuracyFacts.

Lemma broadcast_same_length {A B C} (op : A -> B -> result C) xs ys :
  length xs = length ys ->
  broadcast op xs ys = mapM (fun xy => op (fst xy) (snd xy)) (combine xs ys).
Proof.
  intros H. unfold broadcast.
  destruct xs as [| x [| x' xs]]; destruct ys as [| y [| y' ys]];
    try discriminate; try reflexivity.
  rewrite H, Nat.eqb_refl. reflexivity.
Qed.

Lemma rsum_times_indicator (c : nat) row : forall s,
  rsum (map (fun xy => fst xy * snd xy)
            (combine row (map (fun i => if (i =? c)%nat then 1 else 0)
                              (seq s (length row)))))
  = if ((s <=? c) && (c <? s + length row))%nat then nth (c - s) row 0 else 0.
Proof.
  unfold rsum. induction row as [| x row IH]; intros s; simpl.
  - destruct (s <=? c)%nat; simpl; [| reflexivity].
    destruct (c <? s + 0)%nat eqn:E; [| reflexivity].
    apply Nat.ltb_lt in E. destruct (c - s)%nat; reflexivity.
  - rewrite (IH (S s)).
    destruct (Nat.eqb_spec s c) as [-> | Hsc].
    + rewrite Nat.leb_refl, Nat.sub_diag.
      replace (S c <=? c)%nat with false by (symmetry; apply Nat.leb_gt; lia).
      replace (c <? c + S (length row))%nat with true
        by (symmetry; apply Nat.ltb_lt; lia).
      simpl. lra.
    + destruct (Nat.leb_spec s c) as [Hle | Hgt].
      * replace (S s <=? c)%nat with true by (symmetry; apply Nat.leb_le; lia).
        replace (c <? s + S (length row))%nat
          with (c <? S s + length row)%nat by (f_equal; lia).
        simpl. destruct (c <? S (s + length row))%nat.
        -- replace (c - s)%nat with (S (c - S s)) by lia. simpl. lra.
        -- lra.
      * replace (S s <=? c)%nat with false by (symmetry; apply Nat.leb_gt; lia).
        simpl. lra.
Qed.

Lemma row_times_one_hot row c :
  (c < length row)%nat ->
  exists weighted,
    broadcast (fun x y => Ok (x * y)) row (one_hot (length row) c)
    = Ok weighted
    /\ rsum weighted = nth c row 0.
Proof.
  intros Hc. eexists. split.
  - rewrite broadcast_same_length
      by (unfold one_hot; now rewrite length_map, length_seq).
    apply (mapM_ok _ (fun xy => fst xy * snd xy)). reflexivity.
  - unfold one_hot. rewrite (rsum_times_indicator c row 0).
    replace ((0 <=? c) && (c <? 0 + length row))%nat with true.
    + now rewrite Nat.sub_0_r.
    + symmetry. apply andb_true_iff. split.
      * apply Nat.leb_le. lia.
      * apply Nat.ltb_lt. lia.
Qed.

Lemma weighted_rows (logp : list (list R)) width : forall classes,
  length classes = length logp ->
  (forall row, In row logp -> length row = width) ->
  (forall c, In c classes -> (c < width)%nat) ->
  exists weighted,
    mapM (fun xy => broadcast (fun x y => Ok (x * y)) (fst xy) (snd xy))
         (combine logp (map (one_hot width) classes))
    = Ok weighted
    /\ map rsum weighted
       = map (fun rc => nth (snd rc) (fst rc) 0) (combine logp classes).
Proof.
  induction logp as [| row logp IH]; intros [| c classes] Hl Hw Hc;
    simpl in Hl; try discriminate.
  - exists []. split; reflexivity.
  - injection Hl as Hl.
    assert (Hrow : length row = width) by (apply Hw; now left).
    destruct (row_times_one_hot row c) as (w & Hw1 & Hw2).
    { rewrite Hrow. apply Hc. now left. }
    destruct (IH classes Hl) as (ws & Hws1 & Hws2).
    { intros r Hr. apply Hw. now right. }
    { intros c' Hc'. apply Hc. now right. }
    exists (w :: ws). split.
    + simpl. rewrite <- Hrow at 1. rewrite Hw1. simpl. rewrite Hws1.
      reflexivity.
    + simpl. now rewrite Hw2, Hws2.
Qed.

Section LossFacts.

Variable image : Type.
Variable apply_fn_0 : list (pytree array) -> list image -> list (list R).
Variable apply_fn_1 : list (pytree array) -> list (list R) -> list (list R).
Variable logsoftmax : list R -> list R.

(** X17.  For one-hot targets the loss is minus the mean, over the rows
    of the batch, of the log-probability that the network gives to the
    class of the row.  On an empty batch the loss is nan. *)
Theorem loss_one_hot params inputs classes width :
  (length classes
   = length (map logsoftmax (predict apply_fn_0 apply_fn_1 params inputs)) ->
   classes <> [] ->
   (forall row,
       In row (map logsoftmax (predict apply_fn_0 apply_fn_1 params inputs)) ->
       length row = width) ->
   (forall c, In c classes -> (c < width)%nat) ->
   loss apply_fn_0 apply_fn_1 logsoftmax params
        (inputs, map (one_hot width) classes)
   = Ok (Some (- (rsum (map (fun rc => nth (snd rc) (fst rc) 0)
                            (combine
                               (map logsoftmax
                                    (predict apply_fn_0 apply_fn_1 params
                                             inputs))
                               classes))
                  / INR (length classes)))))
  /\ (predict apply_fn_0 apply_fn_1 params inputs = [] ->
      loss apply_fn_0 apply_fn_1 logsoftmax params (inputs, []) = Ok None).
Proof.
  split.
  - intros Hl Hne Hw Hc. unfold loss, mul_2d.
    set (logp := map logsoftmax (predict apply_fn_0 apply_fn_1 params inputs))
      in *.
    rewrite broadcast_same_length by (now rewrite length_map).
    destruct (weighted_rows logp width classes Hl Hw Hc) as (ws & Hws & Hsum).
    rewrite Hws. simpl. rewrite Hsum.
    assert (Hlen : length (combine logp classes) = length classes).
    { rewrite length_combine. lia. }
    unfold np_mean.
    destruct (map _ (combine logp classes)) eqn:E.
    + apply (f_equal (@length R)) in E. rewrite length_map, Hlen in E.
      destruct classes; [congruence | discriminate].
    + rewrite <- E, length_map, Hlen. reflexivity.
  - intros Hnil. unfold loss. rewrite Hnil. reflexivity.
Qed.

End LossFacts.

(** * Reshaping to images *)

(** X18.  [shape_as_image] returns exactly when the number of entries of
    [images] is a multiple of 32 * 32 * 3 = 3072.  It then keeps the
    entries in their order and the labels as they are, and the leading
    axis counts the images; [dummy_dim] adds an axis of length one after
    it. *)
Theorem shape_as_image_keeps_entries {L} (images : array) (labels : L)
        (dummy_dim : bool) :
  let n := Z.of_nat (size (shape images)) in
  ((n mod 3072 = 0)%Z ->
   shape_as_image images labels dummy_dim
   = Ok (mkArray (if dummy_dim
                  then [Z.to_nat (n / 3072); 1; 32; 32; 3]%nat
                  else [Z.to_nat (n / 3072); 32; 32; 3]%nat)
                 (ravel images),
         labels))
  /\ ((n mod 3072 <> 0)%Z ->
      exists e, shape_as_image images labels dummy_dim = Raise e).
Proof.
  intros n.
  assert (Hn : (0 <= n)%Z) by (unfold n; lia).
  pose proof (Z.div_mod n 3072 ltac:(lia)) as Hdm.
  pose proof (Z.div_pos n 3072 Hn ltac:(lia)) as Hq.
  assert (Hfix : forall tail : list Z,
             zprod tail = 3072%Z ->
             forallb (fun d => (0 <=? d)%Z) tail = true ->
             np_reshape images (-1 :: tail)%Z
             = if (n mod 3072 =? 0)%Z
               then Ok (mkArray (Z.to_nat (n / 3072) :: map Z.to_nat tail)
                                (ravel images))
               else Raise ValueError).
  { intros tail Ht Hpos. unfold np_reshape. fold n.
    assert (Hneg : zprod (-1 :: tail)%Z = (-3072)%Z).
    { change (zprod (-1 :: tail)%Z) with (-1 * zprod tail)%Z. lia. }
    rewrite Hneg. change (-3072 <? 0)%Z with true. cbv iota.
    change (- -3072)%Z with 3072%Z.
    assert (Hmap : map (fun d => if (d =? -1)%Z then (n / 3072)%Z else d)
                       (-1 :: tail)%Z
                   = ((n / 3072) :: tail)%Z).
    { simpl. f_equal. clear -Hpos.
      induction tail as [| d tail IH]; simpl in *; [reflexivity |].
      apply andb_true_iff in Hpos. destruct Hpos as [Hd Hpos].
      apply Z.leb_le in Hd.
      destruct (Z.eqb_spec d (-1)); [lia |]. now rewrite IH. }
    rewrite Hmap.
    change (forallb (fun d => (0 <=? d)%Z) ((n / 3072) :: tail)%Z)
      with ((0 <=? n / 3072)%Z && forallb (fun d => (0 <=? d)%Z) tail).
    rewrite Hpos.
    replace (0 <=? n / 3072)%Z with true by (symmetry; apply Z.leb_le; lia).
    change (zprod ((n / 3072) :: tail)%Z) with ((n / 3072) * zprod tail)%Z.
    rewrite Ht. simpl andb.
    destruct (Z.eqb_spec (n mod 3072) 0) as [H0 | H0];
      destruct (Z.eqb_spec (n / 3072 * 3072) n) as [E | E];
      try reflexivity; lia. }
  assert (Hrun : shape_as_image images labels dummy_dim
                 = if (n mod 3072 =? 0)%Z
                   then Ok (mkArray
                              (if dummy_dim
                               then [Z.to_nat (n / 3072); 1; 32; 32; 3]%nat
                               else [Z.to_nat (n / 3072); 32; 32; 3]%nat)
                              (ravel images), labels)
                   else Raise ValueError).
  { unfold shape_as_image. destruct dummy_dim.
    - rewrite (Hfix [1; 32; 32; 3]%Z) by reflexivity.
      destruct (n mod 3072 =? 0)%Z; reflexivity.
    - rewrite (Hfix [32; 32; 3]%Z) by reflexivity.
      destruct (n mod 3072 =? 0)%Z; reflexivity. }
  rewrite Hrun. split; intros H.
  - now rewrite (proj2 (Z.eqb_eq _ _) H).
  - rewrite (proj2 (Z.eqb_neq _ _) H). now eexists.
Qed.

(** * The further properties at concrete inputs *)

Lemma clipped_grad_norm_bounded_witness :
  0 < 1
  /\ exists clipped,
      _clipped_grad sample_dloss 1 sample_params true = Ok clipped
      /\ global_norm clipped <= 1
      /\ tree_structure clipped = tree_structure sample_params.
Proof.
  assert (HC : 0 < 1) by lra.
  split; [exact HC |].
  exact (clipped_grad_norm_bounded bool sample_dloss 1 sample_params true HC).
Defined.

Lemma private_grad_batch_order_witness :
  Permutation [true; false] [false; true]
  /\ private_grad sample_dloss sample_normal sample_params [true; false]
                  0%nat 1 (11 / 10) 2
     = private_grad sample_dloss sample_normal sample_params [false; true]
                    0%nat 1 (11 / 10) 2.
Proof.
  assert (Hp : Permutation [true; false] [false; true]) by apply perm_swap.
  split; [exact Hp |].
  exact (private_grad_batch_order bool sample_dloss nat sample_normal
           sample_params _ _ 0%nat 1 (11 / 10) 2 Hp).
Defined.

Lemma finetune_repeats_keys_witness :
  (dpsgd sample_flags = true
   /\ finetune sample_PRNGKey sample_fold_in sample_normal sample_dloss
               (fun params _ => params) (fun st : pytree array => st)
               (fun _ g _ => g) sample_flags sample_params
               (fun _ => [[true]; [false]])
      = fold_result
          (fun st epoch =>
             fold_result
               (keyed_private_step sample_PRNGKey sample_fold_in sample_normal
                                   sample_dloss (fun st : pytree array => st)
                                   (fun _ g _ => g) sample_flags)
               [(0%nat, [true]); (1%nat, [false])] st)
          [1%nat] sample_params)
  /\ (dpsgd sample_flags_no_epoch = true
      /\ (epochs sample_flags_no_epoch <= 0)%Z
      /\ finetune sample_PRNGKey sample_fold_in sample_normal sample_dloss
                  (fun params _ => params) (fun st : pytree array => st)
                  (fun _ g _ => g) sample_flags_no_epoch sample_params
                  (fun _ => [[true]; [false]])
         = Ok sample_params).
Proof.
  assert (HF : dpsgd sample_flags = true) by reflexivity.
  assert (HF0 : dpsgd sample_flags_no_epoch = true) by reflexivity.
  assert (He : (epochs sample_flags_no_epoch <= 0)%Z) by (simpl; lia).
  split.
  - split; [exact HF |].
    exact (proj1 (finetune_repeats_keys nat sample_PRNGKey sample_fold_in
                    sample_normal bool sample_dloss (fun params _ => params)
                    (pytree array) (fun st => st) (fun _ g _ => g)
                    sample_flags sample_params (fun _ => [[true]; [false]])
                    HF)).
  - split; [exact HF0 |]. split; [exact He |].
    exact (proj2 (finetune_repeats_keys nat sample_PRNGKey sample_fold_in
                    sample_normal bool sample_dloss (fun params _ => params)
                    (pytree array) (fun st => st) (fun _ g _ => g)
                    sample_flags_no_epoch sample_params
                    (fun _ => [[true]; [false]]) HF0) He).
Defined.



Lemma entropy_branch_edges_witness :
  entropy_indices [[1 / 2; 1 / 2]; [1; 0]] 1 <> []
  /\ entropy_branch [[1 / 2; 1 / 2]; [1; 0]] 1
     = Ok (entropy_indices [[1 / 2; 1 / 2]; [1; 0]] 1)
  /\ entropy_indices [[1 / 2; 1 / 2]; [1; 0]] 0 = []
  /\ entropy_branch [[1 / 2; 1 / 2]; [1; 0]] 0 = Raise ValueError.
Proof.
  destruct (entropy_branch_edges [[1 / 2; 1 / 2]; [1; 0]] 1)
    as (Hok & _ & Hnil).
  destruct (entropy_branch_edges [[1 / 2; 1 / 2]; [1; 0]] 0)
    as (_ & Hraise & Hnil0).
  assert (H1 : entropy_indices [[1 / 2; 1 / 2]; [1; 0]] 1 <> []).
  { intros E. apply Hnil in E. simpl in E.
    destruct E as [E | [E | E]]; [discriminate | lia | lia]. }
  assert (H0 : entropy_indices [[1 / 2; 1 / 2]; [1; 0]] 0 = []).
  { apply Hnil0. right. now left. }
  split; [exact H1 |]. split; [exact (Hok H1) |].
  split; [exact H0 | exact (Hraise H0)].
Defined.

Lemma num_batches_ceiling_witness :
  (0 < 256)%Z /\ (0 <= 3000)%Z
  /\ exists nb,
      num_batches 3000 256 = Ok nb
      /\ (256 * (nb - 1) < 3000 <= 256 * nb)%Z
      /\ (0 <= nb)%Z.
Proof.
  assert (HB : (0 < 256)%Z) by lia.
  assert (Hn : (0 <= 3000)%Z) by lia.
  split; [exact HB |]. split; [exact Hn |].
  exact (proj2 (num_batches_ceiling 3000 256) HB Hn).
Defined.

Lemma difference_branch_tie_witness :
  (forall row, In row [[9 / 10; 1 / 10]; [5 / 10; 5 / 10]] ->
               (2 <= length row)%nat)
  /\ difference_branch [[9 / 10; 1 / 10]; [5 / 10; 5 / 10]] 1
     = Raise AssertionError.
Proof.
  assert (Hrows : forall row,
             In row [[9 / 10; 1 / 10]; [5 / 10; 5 / 10]] ->
             (2 <= length row)%nat).
  { intros row [<- | [<- | []]]; simpl; lia. }
  split; [exact Hrows |].
  apply (proj2 (difference_branch_tie _ 1 Hrows)).
  exists [5 / 10; 5 / 10], (5 / 10), [].
  split; [simpl; auto |]. split; [apply Permutation_refl | intros x []].
Defined.

Lemma sample_pool_diagnostic :
  pool_diagnostic [[1; 2]; [3; 0]] [[0; 1]; [0; 1]] = Ok ([0%nat], [1%nat]).
Proof.
  unfold pool_diagnostic. simpl. decide_Rle. reflexivity.
Qed.

Lemma sample_pool_diagnostic_2 :
  pool_diagnostic [[9 / 10; 1 / 10]; [6 / 10; 4 / 10]] [[1; 0]; [1; 0]]
  = Ok ([0%nat; 1%nat], []).
Proof.
  unfold pool_diagnostic. simpl. decide_Rle. reflexivity.
Qed.

Lemma sample_argsort : argsort [8 / 10; 2 / 10] = [1%nat; 0%nat].
Proof. unfold argsort. simpl. decide_Rle. reflexivity. Qed.

Lemma sample_difference_selection :
  pool_uncertain_indices sample_seeded_state sample_permutation sample_softmax
                         sample_flags_difference 0%nat
                         [[9 / 10; 1 / 10]; [6 / 10; 4 / 10]]
                         [[1; 0]; [1; 0]]
  = Ok [1%nat; 0%nat].
Proof.
  unfold pool_uncertain_indices. simpl bind at 1.
  rewrite sample_pool_diagnostic_2. simpl bind at 1.
  change (map sample_softmax [[9 / 10; 1 / 10]; [6 / 10; 4 / 10]])
    with [[9 / 10; 1 / 10]; [6 / 10; 4 / 10]].
  change (uncertain sample_flags_difference =? 0)%Z with false.
  change (uncertain sample_flags_difference =? 1)%Z with true.
  cbv iota.
  rewrite (difference_branch_passes _ _ _ sample_row_diffs).
  - rewrite sample_argsort. reflexivity.
  - intros d [<- | [<- | []]]; lra.
  - simpl. lia.
Qed.

Lemma pool_uncertain_indices_returns_witness :
  pool_uncertain_indices sample_seeded_state sample_permutation sample_softmax
                         sample_flags_difference 0%nat
                         [[9 / 10; 1 / 10]; [6 / 10; 4 / 10]]
                         [[1; 0]; [1; 0]]
  = Ok [1%nat; 0%nat]
  /\ Z.of_nat (length [1%nat; 0%nat]) = n_extra sample_flags_difference
  /\ NoDup [1%nat; 0%nat]
  /\ (1 <= n_extra sample_flags_difference <= 2)%Z.
Proof.
  destruct (pool_uncertain_indices_returns nat sample_seeded_state
              sample_permutation sample_softmax sample_flags_difference
              0%nat _ _ _ sample_difference_selection)
    as (_ & _ & _ & Hlen & Hrest).
  destruct Hrest as (Hnd & _ & Hk); [discriminate |].
  split; [exact sample_difference_selection |].
  split; [exact Hlen |]. split; [exact Hnd | exact Hk].
Defined.

Lemma pool_uncertain_indices_too_many_witness :
  uncertain sample_flags_too_many = 0%Z
  /\ (0 <= seed sample_flags_too_many < 2 ^ 32)%Z
  /\ pool_diagnostic [[1; 2]; [3; 0]] [[0; 1]; [0; 1]]
     = Ok ([0%nat], [1%nat])
  /\ [[1; 2]; [3; 0]] <> []
  /\ (Z.of_nat (length [[1; 2]; [3; 0]]) < n_extra sample_flags_too_many)%Z
  /\ pool_uncertain_indices sample_seeded_state sample_permutation
                            sample_softmax sample_flags_too_many 0%nat
                            [[1; 2]; [3; 0]] [[0; 1]; [0; 1]]
     = Raise AssertionError.
Proof.
  assert (Hu : uncertain sample_flags_too_many = 0%Z) by reflexivity.
  assert (Hs : (0 <= seed sample_flags_too_many < 2 ^ 32)%Z)
    by (simpl; lia).
  assert (Hne : [[1; 2]; [3; 0]] <> []) by discriminate.
  assert (Hk : (Z.of_nat (length [[1; 2]; [3; 0]])
                < n_extra sample_flags_too_many)%Z) by (simpl; lia).
  repeat (split; [assumption || exact sample_pool_diagnostic |]).
  exact (pool_uncertain_indices_too_many nat sample_seeded_state
           sample_permutation sample_softmax sample_flags_too_many 0%nat
           _ _ _ Hu Hs sample_pool_diagnostic Hne Hk).
Defined.

Lemma pool_logits_batched_witness :
  (0 < batch_size sample_flags)%Z
  /\ [[1]; [2]; [3]] <> []
  /\ (forall (ps : list (pytree array)) (xs ys : list (list R)),
         sample_apply_fn_0 ps (xs ++ ys)
         = sample_apply_fn_0 ps xs ++ sample_apply_fn_0 ps ys)
  /\ pool_logits_of sample_apply_fn_0 sample_apply_fn_1 sample_flags
                    [sample_params] [[1]; [2]; [3]]
     = Ok (predict sample_apply_fn_0 sample_apply_fn_1 [sample_params]
                   [[1]; [2]; [3]]).
Proof.
  assert (HB : (0 < batch_size sample_flags)%Z) by (simpl; lia).
  assert (Hne : [[1]; [2]; [3]] <> []) by discriminate.
  assert (Hadd : forall (ps : list (pytree array)) (xs ys : list (list R)),
             sample_apply_fn_0 ps (xs ++ ys)
             = sample_apply_fn_0 ps xs ++ sample_apply_fn_0 ps ys)
    by reflexivity.
  split; [exact HB |]. split; [exact Hne |]. split; [exact Hadd |].
  exact (proj1 (pool_logits_batched (list R) sample_apply_fn_0
                  sample_apply_fn_1 sample_flags [sample_params]
                  [[1]; [2]; [3]]) HB Hne Hadd).
Defined.

Lemma accuracy_is_share_of_hits_witness :
  length (predict sample_apply_fn_0 sample_apply_fn_1 [sample_params]
                  [[1; 2]; [3; 0]])
  = length [[0; 1]; [0; 1]]
  /\ exists acc predicted_class,
      accuracy sample_apply_fn_0 sample_apply_fn_1 [sample_params]
               ([[1; 2]; [3; 0]], [[0; 1]; [0; 1]]) true
      = Ok (AccAndClasses (Some acc) predicted_class)
      /\ 0 <= acc <= 1
      /\ acc = INR (length [0%nat]) / INR (length [[0; 1]; [0; 1]]).
Proof.
  assert (Hlen : length (predict sample_apply_fn_0 sample_apply_fn_1
                                 [sample_params] [[1; 2]; [3; 0]])
                 = length [[0; 1]; [0; 1]]) by reflexivity.
  assert (Hne : [[0; 1]; [0; 1]] <> []) by discriminate.
  assert (Htar : forall row, In row [[0; 1]; [0; 1]] -> row <> []).
  { intros row [<- | [<- | []]]; discriminate. }
  assert (Hlog : forall row,
             In row (predict sample_apply_fn_0 sample_apply_fn_1
                             [sample_params] [[1; 2]; [3; 0]]) ->
             row <> []).
  { intros row [<- | [<- | []]]; discriminate. }
  destruct (proj1 (accuracy_is_share_of_hits (list R) sample_apply_fn_0
                     sample_apply_fn_1 [sample_params] [[1; 2]; [3; 0]]
                     [[0; 1]; [0; 1]]) Hlen Hne Htar Hlog)
    as (acc & p & t & _ & _ & Hrun & _ & Hbound & _ & Hdiag).
  split; [exact Hlen |].
  exists acc, p. split; [exact Hrun |]. split; [exact Hbound |].
  exact (Hdiag [0%nat] [1%nat] sample_pool_diagnostic).
Defined.

Lemma loss_one_hot_witness :
  length [1%nat]
  = length (map sample_softmax
                (predict sample_apply_fn_0 sample_apply_fn_1 [sample_params]
                         [[1; 2]]))
  /\ loss sample_apply_fn_0 sample_apply_fn_1 sample_softmax [sample_params]
          ([[1; 2]], map (one_hot 2) [1%nat])
     = Ok (Some (- (rsum [2] / INR 1))).
Proof.
  assert (Hl : length [1%nat]
               = length (map sample_softmax
                             (predict sample_apply_fn_0 sample_apply_fn_1
                                      [sample_params] [[1; 2]])))
    by reflexivity.
  assert (Hne : [1%nat] <> []) by discriminate.
  assert (Hw : forall row,
             In row (map sample_softmax
                         (predict sample_apply_fn_0 sample_apply_fn_1
                                  [sample_params] [[1; 2]])) ->
             length row = 2%nat).
  { intros row [<- | []]. reflexivity. }
  assert (Hc : forall c, In c [1%nat] -> (c < 2)%nat).
  { intros c [<- | []]. lia. }
  split; [exact Hl |].
  exact (proj1 (loss_one_hot (list R) sample_apply_fn_0 sample_apply_fn_1
                  sample_softmax [sample_params] [[1; 2]] [1%nat] 2%nat)
               Hl Hne Hw Hc).
Defined.

Lemma shape_as_image_keeps_entries_witness :
  (Z.of_nat (size [3072%nat]) mod 3072 = 0)%Z
  /\ shape_as_image (mkArray [3072%nat] (repeat 0 3072)) tt true
     = Ok (mkArray [Z.to_nat (Z.of_nat (size [3072%nat]) / 3072);
                    1%nat; 32%nat; 32%nat; 3%nat]
                   (repeat 0 3072), tt).
Proof.
  assert (H : (Z.of_nat (size [3072%nat]) mod 3072 = 0)%Z)
    by (vm_compute; reflexivity).
  split; [exact H |].
  exact (proj1 (shape_as_image_keeps_entries
                  (mkArray [3072%nat] (repeat 0 3072)) tt true) H).
Defined.
